(** * MultiStepper: several stepper motors driven from one object

    Shallow embedding of [src/MultiStepper.cpp] (the multi-motor variant of
    the Wiring/Arduino Stepper library) and the properties of its
    registration, speed, move and coil-pattern routines.

    Reading conventions.  The file is written for the Wiring/Arduino boards
    named in its header: [int] is 16 bits wide there and [long] 32 bits
    (which is why line 142 spells its constants [60L * 1000L]).  Values are
    kept in [Z]; the wrap-around of a store into an [int] cell is written
    out with [to_int].

    The members are bare [int*] pointers obtained from [new int[n]]: the
    object keeps no length and no statement compares an index with one.  A
    member is therefore modelled as the function from index to cell
    content.  [new int[n]] leaves the cells indeterminate, so the
    constructor takes their initial contents as an argument and every
    theorem holds for all of them.  The length given to [new] is kept in
    the ghost field [allocated] so that "within capacity" can be stated;
    C++ gives an access at an index outside [0, allocated) no meaning, and
    the model simply follows the statement (the cell at that index is
    read or assigned).

    The source is not valid C++ everywhere.  Where a statement has a
    meaning as it is written, the model follows that meaning: line 182
    compares the array pointer [this->direction] with 1 and line 191
    decrements the array pointer [this->step_number]; line 178 lets
    [motor] run over the elements of [steps_to_move].  Where a statement
    has no meaning as written, the one reading at hand is taken and marked
    where it is embedded: line 142 divides by the array
    [this->number_of_steps] and subscripts with an undeclared [i], and is
    read at [motor], the one index in scope; line 161 declares
    [steps_left] as an [int] and is read as the array its right side
    allocates; lines 149, 165 and 178 iterate over bare [int[]]
    parameters, which carry no length, and are read as loops over all
    cells of the caller's list and of the array of line 161. *)

From Stdlib Require Import ZArith List Bool Lia.
Import ListNotations.
Open Scope Z_scope.

(** ** Machine integers *)

Definition INT_BITS : Z := 16.
Definition LONG_BITS : Z := 32.

Definition INT_MAX : Z := 2 ^ (INT_BITS - 1) - 1.
Definition INT_MIN : Z := - 2 ^ (INT_BITS - 1).

(** Conversion to a signed [int]: two's complement wrap-around. *)
Definition to_int (z : Z) : Z :=
  (z + 2 ^ (INT_BITS - 1)) mod 2 ^ INT_BITS - 2 ^ (INT_BITS - 1).

(** Conversion to [unsigned long]. *)
Definition to_ulong (z : Z) : Z := z mod 2 ^ LONG_BITS.

(** ** The board: clock and pins *)

(** Modelled from the spec: the Clock and DigitalOutput collaborators of
    its section 6, which the code reaches as [millis], [pinMode] and
    [digitalWrite] of [Arduino.h]; that header is not among the sources.
    The board is the record of what the program can observe of them: the
    values successive calls of [millis] return (a 32-bit millisecond
    counter, any sequence of values) and the sequence of pin operations.
    It also holds what the program finds in storage it allocates inside
    [step]: [new int[n]] leaves the cells indeterminate, and [store] gives
    the content of each cell of such an array. *)

Module Arduino.

Inductive level := LOW | HIGH.
Inductive mode := OUTPUT.

Inductive event :=
| pinMode (pin : Z) (m : mode)
| digitalWrite (pin : Z) (v : level).

Record board := {
  clock : nat -> Z;     (* value returned by the n-th call of millis() *)
  ticks : nat;          (* calls of millis() made so far *)
  trace : list event;   (* pin operations made so far, oldest first *)
  store : Z -> Z        (* content of the cells a new int[] comes with *)
}.

Definition millis (b : board) : Z * board :=
  (to_ulong (clock b (ticks b)),
   {| clock := clock b; ticks := S (ticks b); trace := trace b;
      store := store b |}).

Definition emit (es : list event) (b : board) : board :=
  {| clock := clock b; ticks := ticks b; trace := trace b ++ es;
     store := store b |}.

Definition is_write (e : event) : bool :=
  match e with digitalWrite _ _ => true | pinMode _ _ => false end.

(** The pin writes among the operations recorded so far. *)
Definition writes (b : board) : list event := filter is_write (trace b).

End Arduino.
Import Arduino.

(** ** The object *)

Module MultiStepper.

(** The eleven arrays allocated by the constructor (lines 58-70). *)
Inductive member :=
| step_number | speed | direction | last_step_time | number_of_steps
| step_delay | motor_pin_1 | motor_pin_2 | motor_pin_3 | motor_pin_4
| pin_count.

Definition member_eq_dec (a b : member) : {a = b} + {a <> b}.
Proof. decide equality. Defined.

Record t := {
  cells : member -> Z -> Z;  (* this->a[i] *)
  motor_count : Z;           (* this->motor_count *)
  allocated : Z              (* ghost: the n of new int[n] *)
}.

(** [this->a[i]] *)
Definition rd (this : t) (a : member) (i : Z) : Z := cells this a i.

(** [this->a[i] = v] *)
Definition wr (this : t) (a : member) (i v : Z) : t :=
  {| cells := fun a' j =>
                if member_eq_dec a' a
                then if j =? i then v else cells this a' j
                else cells this a' j;
     motor_count := motor_count this;
     allocated := allocated this |}.

Definition set_motor_count (this : t) (n : Z) : t :=
  {| cells := cells this; motor_count := n; allocated := allocated this |}.

(** [this->a--]: the array pointer moves down by one [int], so that
    [this->a[j + 1]] is afterwards what [this->a[j]] was. *)
Definition move_down (this : t) (a : member) : t :=
  {| cells := fun a' j =>
                if member_eq_dec a' a
                then cells this a' (j - 1)
                else cells this a' j;
     motor_count := motor_count this;
     allocated := allocated this |}.

(** The values [step] assigns to [direction] (lines 169-170): 1 for a
    positive count, 0 for a negative one. *)
Definition Forward : Z := 1.
Definition Backward : Z := 0.

(** Lines 56-72.  [raw] is the content of the freshly allocated storage.
    The function describes the object that exists after a constructor
    call with [number_of_motors >= 0]; for a negative argument [new]
    allocates nothing and there is no object to describe. *)
Definition MultiStepper (number_of_motors : Z) (raw : member -> Z -> Z) : t :=
  {| cells := raw; motor_count := 0; allocated := number_of_motors |}.

(** Lines 202-252: the pin writes of one call, in program order.  Both
    [switch] statements lack a [default]. *)
Definition stepMotor (this : t) (thisStep motor : Z) : list event :=
  (if rd this pin_count motor =? 2 then
     match thisStep with
     | 0 => [digitalWrite (rd this motor_pin_1 motor) LOW;
             digitalWrite (rd this motor_pin_2 motor) HIGH]
     | 1 => [digitalWrite (rd this motor_pin_1 motor) HIGH;
             digitalWrite (rd this motor_pin_2 motor) HIGH]
     | 2 => [digitalWrite (rd this motor_pin_1 motor) HIGH;
             digitalWrite (rd this motor_pin_2 motor) LOW]
     | 3 => [digitalWrite (rd this motor_pin_1 motor) LOW;
             digitalWrite (rd this motor_pin_2 motor) LOW]
     | _ => []
     end
   else [])
  ++
  (if rd this pin_count motor =? 4 then
     match thisStep with
     | 0 => [digitalWrite (rd this motor_pin_1 motor) HIGH;
             digitalWrite (rd this motor_pin_2 motor) LOW;
             digitalWrite (rd this motor_pin_3 motor) HIGH;
             digitalWrite (rd this motor_pin_4 motor) LOW]
     | 1 => [digitalWrite (rd this motor_pin_1 motor) LOW;
             digitalWrite (rd this motor_pin_2 motor) HIGH;
             digitalWrite (rd this motor_pin_3 motor) HIGH;
             digitalWrite (rd this motor_pin_4 motor) LOW]
     | 2 => [digitalWrite (rd this motor_pin_1 motor) LOW;
             digitalWrite (rd this motor_pin_2 motor) HIGH;
             digitalWrite (rd this motor_pin_3 motor) LOW;
             digitalWrite (rd this motor_pin_4 motor) HIGH]
     | 3 => [digitalWrite (rd this motor_pin_1 motor) HIGH;
             digitalWrite (rd this motor_pin_2 motor) LOW;
             digitalWrite (rd this motor_pin_3 motor) LOW;
             digitalWrite (rd this motor_pin_4 motor) HIGH]
     | _ => []
     end
   else []).

(** The object together with the board it drives. *)
Record world := { obj : t; hw : board }.

(** Lines 78-103, the two-wire registration.  [step_delay] is not among
    the members assigned; no statement compares [motor_count] with the
    allocated length. *)
Definition addMotor (n_steps pin_1 pin_2 : Z) (w : world) : world :=
  let this := obj w in
  let i := motor_count this in
  let this := wr this step_number i 0 in
  let this := wr this speed i 0 in
  let this := wr this direction i 0 in
  let this := wr this last_step_time i 0 in
  let this := wr this number_of_steps i n_steps in
  let this := wr this motor_pin_1 i pin_1 in
  let this := wr this motor_pin_2 i pin_2 in
  let hw := emit [pinMode (rd this motor_pin_1 i) OUTPUT;
                  pinMode (rd this motor_pin_2 i) OUTPUT] (hw w) in
  let this := wr this motor_pin_3 i 0 in
  let this := wr this motor_pin_4 i 0 in
  let this := wr this pin_count i 2 in
  {| obj := set_motor_count this (to_int (motor_count this + 1)); hw := hw |}.

(** Lines 109-134, the four-wire registration. *)
Definition addMotor4 (n_steps pin_1 pin_2 pin_3 pin_4 : Z) (w : world)
  : world :=
  let this := obj w in
  let i := motor_count this in
  let this := wr this step_number i 0 in
  let this := wr this speed i 0 in
  let this := wr this direction i 0 in
  let this := wr this last_step_time i 0 in
  let this := wr this number_of_steps i n_steps in
  let this := wr this motor_pin_1 i pin_1 in
  let this := wr this motor_pin_2 i pin_2 in
  let this := wr this motor_pin_3 i pin_3 in
  let this := wr this motor_pin_4 i pin_4 in
  let hw := emit [pinMode (rd this motor_pin_1 i) OUTPUT;
                  pinMode (rd this motor_pin_2 i) OUTPUT;
                  pinMode (rd this motor_pin_3 i) OUTPUT;
                  pinMode (rd this motor_pin_4 i) OUTPUT] (hw w) in
  let this := wr this pin_count i 4 in
  {| obj := set_motor_count this (to_int (motor_count this + 1)); hw := hw |}.

(** Lines 140-143.  The source subscripts [step_delay] with [i] and
    divides by [this->number_of_steps]; both are read at [motor].  The
    division is C++ integer division ([Z.quot], toward zero) in [long];
    its intermediate results lie between -60000 and 60000 (lemma
    [quot_quot_bounded]) and only the store into the [int] cell can
    wrap.  A zero divisor has no defined result: [None]. *)
Definition setSpeed (whatSpeed motor : Z) (w : world) : option world :=
  let this := obj w in
  let n := rd this number_of_steps motor in
  if (n =? 0) || (whatSpeed =? 0) then None
  else Some {| obj := wr this step_delay motor
                         (to_int (Z.quot (Z.quot (60 * 1000) n) whatSpeed));
               hw := hw w |}.

(** Lines 146-153. *)
Definition stepsLeft (steps_left : list Z) : Z :=
  fold_left (fun max_steps_left steps =>
               if max_steps_left <? steps then steps else max_steps_left)
            steps_left 0.

(** Lines 165-174: the cells of the remaining-steps array that the loop
    assigns, one per element of [steps_to_move] in order, and the
    directions.  ([max_steps_left] of lines 163 and 172 is never read and
    is left out.) *)
Fixpoint prepare (steps_to_move : list Z) (i : Z) (this : t) : list Z * t :=
  match steps_to_move with
  | [] => ([], this)
  | steps :: rest =>
      let this := if 0 <? steps then wr this direction i 1 else this in
      let this := if steps <? 0 then wr this direction i 0 else this in
      let (steps_left, this) := prepare rest (to_int (i + 1)) this in
      (to_int (Z.abs steps) :: steps_left, this)
  end.

(** Lines 179-194, the body of [for (int motor : steps_to_move)]: [motor]
    is an element of [steps_to_move].  Line 182 tests
    [this->direction == 1] with the array pointer on its left; a pointer
    that [new] returned is not 1, so the test fails whatever the cells
    hold and lines 183-186 are never executed.  In the branch taken,
    lines 188-190 act on the cell [step_number[motor]] and line 191,
    [this->step_number--], on the array pointer.  Line 193 then reads
    [step_number[motor]] through the moved pointer.  No statement assigns
    [steps_left]. *)
Definition service (motor : Z) (w : world) : world :=
  let this := obj w in
  let (now, hw1) := millis (hw w) in
  if to_ulong (now - rd this last_step_time motor)
     >=? to_ulong (rd this step_delay motor)
  then
    let (now', hw2) := millis hw1 in
    let this := wr this last_step_time motor (to_int now') in
    let this := if rd this step_number motor =? 0
                then wr this step_number motor
                        (rd this number_of_steps motor)
                else this in
    let this := move_down this step_number in
    {| obj := this;
       hw := emit (stepMotor this (Z.rem (rd this step_number motor) 4) motor)
                  hw2 |}
  else {| obj := this; hw := hw1 |}.

(** Lines 178-195: one execution of the body of the [while]. *)
Definition pass (steps_to_move : list Z) (w : world) : world :=
  fold_left (fun w motor => service motor w) steps_to_move w.

(** A call of [step] either returns or is still inside its [while] loop
    after the given number of executions of the loop body. *)
Inductive outcome :=
| Returned (w : world)
| Running (w : world).

(** Lines 177-196. *)
Fixpoint loop (fuel : nat) (steps_to_move steps_left : list Z) (w : world)
  : outcome :=
  if 0 <? stepsLeft steps_left then
    match fuel with
    | O => Running w
    | S fuel => loop fuel steps_to_move steps_left (pass steps_to_move w)
    end
  else Returned w.

(** The cells of the array of line 161, [new int[motor_count]], that
    lines 165-174 do not assign: those from index [len], the number of
    elements of the caller's list, up to [count - 1], with the content
    the storage came with.  There are none when the list has [count]
    elements or more. *)
Definition unassigned (b : board) (len : nat) (count : Z) : list Z :=
  map (fun i => store b (Z.of_nat i)) (seq len (Z.to_nat count - len)).

(** Lines 159-197.  The array that [stepsLeft] examines has the
    [motor_count] cells of line 161: the assigned ones followed by the
    unassigned ones.  When the caller's list has more than [motor_count]
    elements, line 166 stores outside the array; the model keeps these
    cells in the list, as it keeps every store at an index out of
    range. *)
Definition step (fuel : nat) (steps_to_move : list Z) (w : world) : outcome :=
  let (assigned, this) := prepare steps_to_move 0 (obj w) in
  loop fuel steps_to_move
       (assigned
        ++ unassigned (hw w) (length steps_to_move) (motor_count (obj w)))
       {| obj := this; hw := hw w |}.

(** Lines 257-260. *)
Definition version : Z := 5.

End MultiStepper.
Import MultiStepper.

(** * Predicates and example states *)

(** What a two-wire registration leaves at the index it used. *)
Definition two_wire (this : t) (motor pinA pinB : Z) : Prop :=
  rd this pin_count motor = 2 /\
  rd this motor_pin_1 motor = pinA /\
  rd this motor_pin_2 motor = pinB.

(** What a four-wire registration leaves at the index it used. *)
Definition four_wire (this : t) (motor pinA pinB pinC pinD : Z) : Prop :=
  rd this pin_count motor = 4 /\
  rd this motor_pin_1 motor = pinA /\
  rd this motor_pin_2 motor = pinB /\
  rd this motor_pin_3 motor = pinC /\
  rd this motor_pin_4 motor = pinD.

(** A board that has done nothing yet, whose clock advances by [dt]
    milliseconds between successive calls of [millis] and whose free
    storage holds 0 everywhere. *)
Definition idle_board (dt : Z) : board :=
  {| clock := fun n => dt * Z.of_nat (S n); ticks := 0; trace := [];
     store := fun _ => 0 |}.

(** A freshly constructed object for [n] motors whose storage holds the
    value [junk] everywhere. *)
Definition fresh (n junk dt : Z) : world :=
  {| obj := MultiStepper n (fun _ _ => junk); hw := idle_board dt |}.

(** One object with a single two-wire motor (200 steps, pins 8 and 9) and
    one with a single four-wire motor (48 steps, pins 4 to 7). *)
Definition one_two_wire : t := obj (addMotor 200 8 9 (fresh 1 7 5)).
Definition one_four_wire : t := obj (addMotor4 48 4 5 6 7 (fresh 1 7 5)).


(** The control block of a new motor as the specification describes it:
    step index 0, direction forward, last step time 0, step interval 0. *)
Definition specified_block (this : t) (i : Z) : Prop :=
  rd this step_number i = 0 /\
  rd this direction i = Forward /\
  rd this last_step_time i = 0 /\
  rd this step_delay i = 0.

(** The control block a registration creates at the index [motor_count]
    of the object [before]: the cells it assigns, and [step_delay], which
    it does not assign. *)
Definition created_block (before after : t) (n_steps : Z) : Prop :=
  rd after step_number (motor_count before) = 0 /\
  rd after speed (motor_count before) = 0 /\
  rd after direction (motor_count before) = Backward /\
  rd after last_step_time (motor_count before) = 0 /\
  rd after number_of_steps (motor_count before) = n_steps /\
  rd after step_delay (motor_count before) =
    rd before step_delay (motor_count before).

(** As many motors registered as the constructor allocated room for. *)
Definition full (w : world) : Prop :=
  motor_count (obj w) = allocated (obj w).

Definition within_capacity (w : world) : Prop :=
  motor_count (obj w) <= allocated (obj w).

(** An object allocated for one motor, with one motor registered. *)
Definition full_bank : world := addMotor 200 8 9 (fresh 1 7 5).

(** The world a call of [step] has reached, returned or not. *)
Definition reached (o : outcome) : world :=
  match o with Returned w => w | Running w => w end.

(** The calls a program can make on the object. *)
Inductive call :=
| AddMotor (n_steps pin_1 pin_2 : Z)
| AddMotor4 (n_steps pin_1 pin_2 pin_3 pin_4 : Z)
| SetSpeed (whatSpeed motor : Z)
| Step (fuel : nat) (steps_to_move : list Z).

Definition exec (c : call) (w : world) : option world :=
  match c with
  | AddMotor n p1 p2 => Some (addMotor n p1 p2 w)
  | AddMotor4 n p1 p2 p3 p4 => Some (addMotor4 n p1 p2 p3 p4 w)
  | SetSpeed whatSpeed motor => setSpeed whatSpeed motor w
  | Step fuel steps_to_move => Some (reached (step fuel steps_to_move w))
  end.

Fixpoint exec_all (cs : list call) (w : world) : option world :=
  match cs with
  | [] => Some w
  | c :: cs => match exec c w with
               | Some w' => exec_all cs w'
               | None => None
               end
  end.

(** [c] is a call of [setSpeed] for [motor]. *)
Definition sets_speed_of (motor : Z) (c : call) : bool :=
  match c with
  | SetSpeed _ motor' => motor' =? motor
  | _ => false
  end.

(** No call of [setSpeed] for [motor] among [cs]. *)
Definition no_setSpeed_of (motor : Z) (cs : list call) : bool :=
  forallb (fun c => negb (sets_speed_of motor c)) cs.

(** An object with one registered motor of one step per revolution. *)
Definition one_step_motor : world := addMotor 1 8 9 (fresh 1 7 5).

(** The world after a call of [setSpeed], or the one before it when the
    call has no defined result. *)
Definition or_unchanged (o : option world) (w : world) : world :=
  match o with Some w' => w' | None => w end.

(** An object allocated for two motors, with two two-wire motors of 200
    steps registered (pins 2, 3 and 4, 5) and both speeds set to 60 rpm,
    on a board whose clock advances 5 ms between calls of [millis]. *)
Definition two_motors : world :=
  let w := addMotor 200 4 5 (addMotor 200 2 3 (fresh 2 7 5)) in
  let w := or_unchanged (setSpeed 60 0 w) w in
  or_unchanged (setSpeed 60 1 w) w.

(** The remaining-steps array as lines 165-174 fill it. *)
Definition remaining (steps_to_move : list Z) : list Z :=
  map (fun steps => to_int (Z.abs steps)) steps_to_move.

(** A call of [step] that touches no pin, however long it is followed. *)
Definition no_pin_write (steps_to_move : list Z) (w : world) : Prop :=
  forall fuel,
    writes (hw (reached (step fuel steps_to_move w))) = writes (hw w).

(** * Further predicates *)

(** The test of line 179 as [service] evaluates it: the first thing a
    servicing does is to read the clock. *)
Definition due (motor : Z) (w : world) : bool :=
  to_ulong (fst (millis (hw w)) - rd (obj w) last_step_time motor)
  >=? to_ulong (rd (obj w) step_delay motor).

(** The board after [n] more calls of [millis]. *)
Definition after_millis (n : nat) (b : board) : board :=
  {| clock := clock b; ticks := (n + ticks b)%nat; trace := trace b;
     store := store b |}.

(** The cells that describe how a motor is built and wired. *)
Definition wiring (a : member) : bool :=
  match a with
  | number_of_steps | motor_pin_1 | motor_pin_2 | motor_pin_3 | motor_pin_4
  | pin_count => true
  | _ => false
  end.

(** The level written by a pin write. *)
Definition levels (es : list event) : list level :=
  flat_map (fun e => match e with
                     | digitalWrite _ v => [v]
                     | pinMode _ _ => []
                     end) es.

(** The pin a pin operation addresses. *)
Definition pin_of (e : event) : Z :=
  match e with pinMode p _ => p | digitalWrite p _ => p end.

Definition inverse (v : level) : level :=
  match v with LOW => HIGH | HIGH => LOW end.

(** The number of positions at which two level lists differ. *)
Fixpoint differences (l1 l2 : list level) : nat :=
  match l1, l2 with
  | v1 :: l1, v2 :: l2 =>
      ((match v1, v2 with
        | LOW, LOW | HIGH, HIGH => 0
        | _, _ => 1
        end) + differences l1 l2)%nat
  | _, _ => 0%nat
  end.

(** The registrations among a list of calls. *)
Definition is_registration (c : call) : bool :=
  match c with AddMotor _ _ _ | AddMotor4 _ _ _ _ _ => true | _ => false end.

Definition registrations (cs : list call) : Z :=
  Z.of_nat (length (filter is_registration cs)).

(** The cells of [motor] describe the motor that the registration [c]
    registers. *)
Definition registered_as (c : call) (this : t) (motor : Z) : Prop :=
  match c with
  | AddMotor n p1 p2 =>
      rd this number_of_steps motor = n /\ two_wire this motor p1 p2
  | AddMotor4 n p1 p2 p3 p4 =>
      rd this number_of_steps motor = n /\
      four_wire this motor p1 p2 p3 p4
  | _ => True
  end.

(** The same world on a board whose free storage holds [junk]
    everywhere. *)
Definition littered (junk : Z) (w : world) : world :=
  {| obj := obj w;
     hw := {| clock := clock (hw w); ticks := ticks (hw w);
              trace := trace (hw w); store := fun _ => junk |} |}.

(** * Properties *)

(** ** Integers *)

Lemma to_int_small (z : Z) : INT_MIN <= z <= INT_MAX -> to_int z = z.
Proof.
  unfold INT_MIN, INT_MAX, to_int, INT_BITS.
  change (2 ^ (16 - 1)) with 32768. change (2 ^ 16) with 65536.
  intros H. rewrite Z.mod_small; lia.
Qed.

(** The generic shape of a [switch] over the four phases without a
    [default]: outside 0..3 no case is taken. *)
Lemma switch_no_case {A : Type} (x : Z) (a b c d e : A) :
  x < 0 \/ 3 < x ->
  match x with 0 => a | 1 => b | 2 => c | 3 => d | _ => e end = e.
Proof.
  intros H. destruct x as [|p|p]; try lia; try reflexivity.
  destruct p as [[q|q|]|[q|q|]|]; try lia; try reflexivity.
Qed.

(** ** Cells *)

Lemma rd_wr_same (this : t) (a : member) (i v : Z) :
  rd (wr this a i v) a i = v.
Proof.
  unfold rd, wr; simpl.
  destruct (member_eq_dec a a) as [_|n]; [|congruence].
  now rewrite Z.eqb_refl.
Qed.

Lemma rd_wr_member (this : t) (a a' : member) (i j v : Z) :
  a' <> a -> rd (wr this a i v) a' j = rd this a' j.
Proof.
  intros Hne. unfold rd, wr; simpl.
  destruct (member_eq_dec a' a); [congruence | reflexivity].
Qed.

Lemma rd_wr_index (this : t) (a a' : member) (i j v : Z) :
  j <> i -> rd (wr this a i v) a' j = rd this a' j.
Proof.
  intros Hne. unfold rd, wr; simpl.
  destruct (member_eq_dec a' a); [|reflexivity].
  destruct (Z.eqb_spec j i); [lia | reflexivity].
Qed.

Lemma rd_set_motor_count (this : t) (n : Z) (a : member) (i : Z) :
  rd (set_motor_count this n) a i = rd this a i.
Proof. reflexivity. Qed.

Lemma motor_count_wr (this : t) (a : member) (i v : Z) :
  motor_count (wr this a i v) = motor_count this.
Proof. reflexivity. Qed.

Lemma allocated_wr (this : t) (a : member) (i v : Z) :
  allocated (wr this a i v) = allocated this.
Proof. reflexivity. Qed.

Lemma rd_move_down_same (this : t) (a : member) (j : Z) :
  rd (move_down this a) a j = rd this a (j - 1).
Proof.
  unfold rd, move_down; simpl.
  destruct (member_eq_dec a a) as [_|n]; [reflexivity | congruence].
Qed.

Lemma rd_move_down_member (this : t) (a a' : member) (j : Z) :
  a' <> a -> rd (move_down this a) a' j = rd this a' j.
Proof.
  intros Hne. unfold rd, move_down; simpl.
  destruct (member_eq_dec a' a); [congruence | reflexivity].
Qed.

Create Rewrite HintDb cells.
#[local] Hint Rewrite rd_wr_same rd_set_motor_count motor_count_wr allocated_wr
  : cells.
#[local] Hint Rewrite rd_wr_member using discriminate : cells.
#[local] Hint Rewrite rd_move_down_member using discriminate : cells.

(** Reads through a chain of assignments to other members or to the member
    itself. *)
Ltac simpl_rd := autorewrite with cells; try reflexivity.

(** ** Registration *)

Lemma addMotor_two_wire (n pinA pinB : Z) (w : world) :
  two_wire (obj (addMotor n pinA pinB w)) (motor_count (obj w)) pinA pinB.
Proof. unfold two_wire, addMotor; cbn [obj hw]. repeat split; simpl_rd. Qed.

Lemma addMotor4_four_wire (n pinA pinB pinC pinD : Z) (w : world) :
  four_wire (obj (addMotor4 n pinA pinB pinC pinD w)) (motor_count (obj w))
            pinA pinB pinC pinD.
Proof. unfold four_wire, addMotor4; cbn [obj hw]. repeat split; simpl_rd. Qed.

(** ** The coil patterns *)

(** C7: for a motor registered with two wires, [stepMotor] writes for the
    phases 0, 1, 2, 3 the level pairs (LOW,HIGH), (HIGH,HIGH), (HIGH,LOW),
    (LOW,LOW), first to pin A and then to pin B, and nothing else. *)
Theorem stepMotor_two_wire_table (this : t) (motor pinA pinB : Z) :
  two_wire this motor pinA pinB ->
  stepMotor this 0 motor = [digitalWrite pinA LOW; digitalWrite pinB HIGH] /\
  stepMotor this 1 motor = [digitalWrite pinA HIGH; digitalWrite pinB HIGH] /\
  stepMotor this 2 motor = [digitalWrite pinA HIGH; digitalWrite pinB LOW] /\
  stepMotor this 3 motor = [digitalWrite pinA LOW; digitalWrite pinB LOW].
Proof.
  intros (Hc & HA & HB). unfold stepMotor.
  rewrite Hc, HA, HB. simpl. repeat split.
Qed.

Lemma stepMotor_two_wire_table_witness :
  two_wire one_two_wire 0 8 9 /\
  stepMotor one_two_wire 0 0 = [digitalWrite 8 LOW; digitalWrite 9 HIGH] /\
  stepMotor one_two_wire 1 0 = [digitalWrite 8 HIGH; digitalWrite 9 HIGH] /\
  stepMotor one_two_wire 2 0 = [digitalWrite 8 HIGH; digitalWrite 9 LOW] /\
  stepMotor one_two_wire 3 0 = [digitalWrite 8 LOW; digitalWrite 9 LOW].
Proof.
  split.
  - exact (addMotor_two_wire 200 8 9 (fresh 1 7 5)).
  - apply (stepMotor_two_wire_table _ 0 8 9).
    exact (addMotor_two_wire 200 8 9 (fresh 1 7 5)).
Defined.

(** C8: for a motor registered with four wires, [stepMotor] writes for the
    phases 0, 1, 2, 3 the level quadruples (HIGH,LOW,HIGH,LOW),
    (LOW,HIGH,HIGH,LOW), (LOW,HIGH,LOW,HIGH), (HIGH,LOW,LOW,HIGH) to the
    pins A, B, C, D in this order, and nothing else. *)
Theorem stepMotor_four_wire_table
        (this : t) (motor pinA pinB pinC pinD : Z) :
  four_wire this motor pinA pinB pinC pinD ->
  stepMotor this 0 motor =
    [digitalWrite pinA HIGH; digitalWrite pinB LOW;
     digitalWrite pinC HIGH; digitalWrite pinD LOW] /\
  stepMotor this 1 motor =
    [digitalWrite pinA LOW; digitalWrite pinB HIGH;
     digitalWrite pinC HIGH; digitalWrite pinD LOW] /\
  stepMotor this 2 motor =
    [digitalWrite pinA LOW; digitalWrite pinB HIGH;
     digitalWrite pinC LOW; digitalWrite pinD HIGH] /\
  stepMotor this 3 motor =
    [digitalWrite pinA HIGH; digitalWrite pinB LOW;
     digitalWrite pinC LOW; digitalWrite pinD HIGH].
Proof.
  intros (Hc & HA & HB & HC & HD). unfold stepMotor.
  rewrite Hc, HA, HB, HC, HD. simpl. repeat split.
Qed.

Lemma stepMotor_four_wire_table_witness :
  four_wire one_four_wire 0 4 5 6 7 /\
  stepMotor one_four_wire 0 0 =
    [digitalWrite 4 HIGH; digitalWrite 5 LOW;
     digitalWrite 6 HIGH; digitalWrite 7 LOW] /\
  stepMotor one_four_wire 1 0 =
    [digitalWrite 4 LOW; digitalWrite 5 HIGH;
     digitalWrite 6 HIGH; digitalWrite 7 LOW] /\
  stepMotor one_four_wire 2 0 =
    [digitalWrite 4 LOW; digitalWrite 5 HIGH;
     digitalWrite 6 LOW; digitalWrite 7 HIGH] /\
  stepMotor one_four_wire 3 0 =
    [digitalWrite 4 HIGH; digitalWrite 5 LOW;
     digitalWrite 6 LOW; digitalWrite 7 HIGH].
Proof.
  split.
  - exact (addMotor4_four_wire 48 4 5 6 7 (fresh 1 7 5)).
  - apply (stepMotor_four_wire_table _ 0 4 5 6 7).
    exact (addMotor4_four_wire 48 4 5 6 7 (fresh 1 7 5)).
Defined.

(** C10: [stepMotor] writes no pin when the phase is outside 0..3, and
    none either when the pin count recorded for the motor is neither 2 nor
    4, whatever the motor index. *)
Theorem stepMotor_no_case_no_write (this : t) (thisStep motor : Z) :
  (thisStep < 0 \/ 3 < thisStep) \/
  (rd this pin_count motor <> 2 /\ rd this pin_count motor <> 4) ->
  stepMotor this thisStep motor = [].
Proof.
  intros [Hphase | [H2 H4]]; unfold stepMotor.
  - rewrite !switch_no_case by assumption.
    destruct (_ =? 2), (_ =? 4); reflexivity.
  - destruct (Z.eqb_spec (rd this pin_count motor) 2); [contradiction|].
    destruct (Z.eqb_spec (rd this pin_count motor) 4); [contradiction|].
    reflexivity.
Qed.

Lemma stepMotor_no_case_no_write_witness :
  stepMotor one_two_wire 4 0 = [] /\
  stepMotor (obj (fresh 1 7 5)) 0 0 = [].
Proof.
  split.
  - apply stepMotor_no_case_no_write. left. right. lia.
  - apply stepMotor_no_case_no_write. right. split; vm_compute; discriminate.
Defined.

(** ** Registration: the created block and the motor count *)

Lemma addMotor_created_block (n pinA pinB : Z) (w : world) :
  created_block (obj w) (obj (addMotor n pinA pinB w)) n.
Proof. unfold created_block, addMotor; cbn [obj hw]. repeat split; simpl_rd. Qed.

Lemma addMotor4_created_block (n pinA pinB pinC pinD : Z) (w : world) :
  created_block (obj w) (obj (addMotor4 n pinA pinB pinC pinD w)) n.
Proof. unfold created_block, addMotor4; cbn [obj hw]. repeat split; simpl_rd. Qed.

(** C9, as amended: a registration (two-wire or four-wire) creates the
    block at index [motor_count] with step_number 0, speed 0, direction 0
    (the value [step] assigns for a negative count), last_step_time 0 and
    the given number of steps; it does not assign [step_delay], whose cell
    keeps the content it had. *)
Theorem addMotor_block (n pinA pinB pinC pinD : Z) (w : world) :
  created_block (obj w) (obj (addMotor n pinA pinB w)) n /\
  created_block (obj w) (obj (addMotor4 n pinA pinB pinC pinD w)) n.
Proof.
  split; [apply addMotor_created_block | apply addMotor4_created_block].
Qed.

(** C9, as stated, fails: after a registration on fresh storage the
    direction cell holds 0, not the forward value 1, and the step_delay
    cell holds whatever the storage held (here 7); with storage that
    happens to hold 0 the direction still differs. *)
Lemma addMotor_block_not_as_specified :
  ~ specified_block (obj (addMotor 200 8 9 (fresh 1 7 5))) 0 /\
  ~ specified_block (obj (addMotor4 48 4 5 6 7 (fresh 1 7 5))) 0 /\
  ~ specified_block (obj (addMotor 200 8 9 (fresh 1 0 5))) 0 /\
  rd (obj (addMotor 200 8 9 (fresh 1 7 5))) direction 0 = 0 /\
  rd (obj (addMotor 200 8 9 (fresh 1 7 5))) step_delay 0 = 7.
Proof.
  repeat split; try reflexivity;
    intros (_ & Hdir & _); vm_compute in Hdir; discriminate.
Qed.

Lemma addMotor_motor_count (n pinA pinB : Z) (w : world) :
  motor_count (obj (addMotor n pinA pinB w)) = to_int (motor_count (obj w) + 1)
  /\ allocated (obj (addMotor n pinA pinB w)) = allocated (obj w).
Proof. split; reflexivity. Qed.

Lemma addMotor4_motor_count (n pinA pinB pinC pinD : Z) (w : world) :
  motor_count (obj (addMotor4 n pinA pinB pinC pinD w))
    = to_int (motor_count (obj w) + 1)
  /\ allocated (obj (addMotor4 n pinA pinB pinC pinD w)) = allocated (obj w).
Proof. split; reflexivity. Qed.

(** C4, as amended: a registration (two-wire or four-wire) makes no
    capacity check.  Whatever the allocated length, also when the object
    is full, it raises the motor count by one (as long as the count is
    below INT_MAX) and leaves the allocated length as it was; so the count
    of a full object exceeds its capacity afterwards. *)
Theorem addMotor_counts_unconditionally
        (n pinA pinB pinC pinD : Z) (w : world) :
  INT_MIN <= motor_count (obj w) < INT_MAX ->
  (motor_count (obj (addMotor n pinA pinB w)) = motor_count (obj w) + 1 /\
   motor_count (obj (addMotor4 n pinA pinB pinC pinD w))
     = motor_count (obj w) + 1) /\
  (full w ->
   ~ within_capacity (addMotor n pinA pinB w) /\
   ~ within_capacity (addMotor4 n pinA pinB pinC pinD w)).
Proof.
  intros Hrange.
  destruct (addMotor_motor_count n pinA pinB w) as [Hc Ha].
  destruct (addMotor4_motor_count n pinA pinB pinC pinD w) as [Hc4 Ha4].
  rewrite to_int_small in Hc, Hc4 by lia.
  split; [split; assumption|].
  unfold full, within_capacity. intros Hfull.
  rewrite Hc, Ha, Hc4, Ha4. lia.
Qed.

Lemma addMotor_counts_unconditionally_witness :
  INT_MIN <= motor_count (obj full_bank) < INT_MAX /\
  full full_bank /\
  motor_count (obj (addMotor 200 10 11 full_bank)) = 1 + 1 /\
  ~ within_capacity (addMotor 200 10 11 full_bank) /\
  ~ within_capacity (addMotor4 48 4 5 6 7 full_bank).
Proof.
  assert (Hr : INT_MIN <= motor_count (obj full_bank) < INT_MAX)
    by (vm_compute; split; [discriminate | reflexivity]).
  assert (Hf : full full_bank) by reflexivity.
  destruct (addMotor_counts_unconditionally 200 10 11 4 5 full_bank Hr)
    as [[Hc _] Hfull].
  destruct (Hfull Hf) as [H2 _].
  destruct (addMotor_counts_unconditionally 48 4 5 6 7 full_bank Hr)
    as [_ Hfull4].
  destruct (Hfull4 Hf) as [_ H4].
  split; [exact Hr|]. split; [exact Hf|].
  split; [exact Hc|]. split; [exact H2 | exact H4].
Defined.

(** C4, as stated, fails: on an object allocated for one motor and holding
    one, a further registration of either kind (its block goes to index 1,
    past the one allocated cell of each array) changes the motor count
    from 1 to 2, which exceeds the capacity 1. *)
Lemma addMotor_full_not_rejected :
  full full_bank /\
  motor_count (obj (addMotor 200 10 11 full_bank))
    <> motor_count (obj full_bank) /\
  motor_count (obj (addMotor4 48 4 5 6 7 full_bank))
    <> motor_count (obj full_bank) /\
  ~ within_capacity (addMotor 200 10 11 full_bank) /\
  ~ within_capacity (addMotor4 48 4 5 6 7 full_bank).
Proof.
  repeat split; try reflexivity; vm_compute; congruence.
Qed.

(** ** Speed *)

Lemma quot_abs_le (a b : Z) : 0 <= a -> b <> 0 -> - a <= Z.quot a b <= a.
Proof.
  intros Ha Hb.
  assert (Hpos : forall c, 0 < c -> 0 <= Z.quot a c <= a).
  { intros c Hc. split; [apply Z.quot_pos; lia|].
    rewrite Z.quot_div_nonneg by lia.
    apply Z.div_le_upper_bound; [lia | nia]. }
  destruct (Z.lt_total b 0) as [Hneg | [H0 | Hp]]; [| lia |].
  - replace b with (- (- b)) by lia.
    rewrite Z.quot_opp_r by lia. specialize (Hpos (- b)). lia.
  - specialize (Hpos b Hp). lia.
Qed.

(** The [long] arithmetic of line 142 never leaves the range of a [long]. *)
Lemma quot_quot_bounded (n whatSpeed : Z) :
  n <> 0 -> whatSpeed <> 0 ->
  Z.quot (Z.quot (60 * 1000) n) whatSpeed = Z.quot 60000 (n * whatSpeed) /\
  - 60000 <= Z.quot (Z.quot (60 * 1000) n) whatSpeed <= 60000.
Proof.
  intros Hn Hs. change (60 * 1000) with 60000.
  rewrite Z.quot_quot by assumption. split; [reflexivity|].
  apply (quot_abs_le 60000 (n * whatSpeed)); nia.
Qed.

Lemma setSpeed_stores (whatSpeed motor : Z) (w : world) :
  rd (obj w) number_of_steps motor <> 0 -> whatSpeed <> 0 ->
  setSpeed whatSpeed motor w =
    Some {| obj := wr (obj w) step_delay motor
                      (to_int (Z.quot 60000
                         (rd (obj w) number_of_steps motor * whatSpeed)));
            hw := hw w |}.
Proof.
  intros Hn Hs. unfold setSpeed.
  destruct (Z.eqb_spec (rd (obj w) number_of_steps motor) 0); [contradiction|].
  destruct (Z.eqb_spec whatSpeed 0); [contradiction|]. cbn [orb].
  now destruct (quot_quot_bounded _ _ Hn Hs) as [-> _].
Qed.

(** [step_delay] is assigned by [setSpeed] alone. *)

Lemma step_delay_addMotor (n p1 p2 : Z) (w : world) (j : Z) :
  rd (obj (addMotor n p1 p2 w)) step_delay j = rd (obj w) step_delay j.
Proof. unfold addMotor; cbn [obj hw]. simpl_rd. Qed.

Lemma step_delay_addMotor4 (n p1 p2 p3 p4 : Z) (w : world) (j : Z) :
  rd (obj (addMotor4 n p1 p2 p3 p4 w)) step_delay j = rd (obj w) step_delay j.
Proof. unfold addMotor4; cbn [obj hw]. simpl_rd. Qed.

Lemma step_delay_setSpeed_other (whatSpeed motor j : Z) (w w' : world) :
  j <> motor -> setSpeed whatSpeed motor w = Some w' ->
  rd (obj w') step_delay j = rd (obj w) step_delay j.
Proof.
  intros Hj. unfold setSpeed.
  destruct (_ || _); [discriminate|]. intros [= <-]. cbn [obj].
  now apply rd_wr_index.
Qed.

Lemma step_delay_service (motor : Z) (w : world) (j : Z) :
  rd (obj (service motor w)) step_delay j = rd (obj w) step_delay j.
Proof.
  unfold service, millis. cbv zeta.
  destruct (_ >=? _); [|reflexivity]. cbn [obj hw].
  repeat match goal with |- context [if ?c then _ else _] => destruct c end;
    simpl_rd.
Qed.

Lemma step_delay_pass (steps_to_move : list Z) (w : world) (j : Z) :
  rd (obj (pass steps_to_move w)) step_delay j = rd (obj w) step_delay j.
Proof.
  unfold pass. revert w.
  induction steps_to_move as [|motor rest IH]; intros w; [reflexivity|].
  cbn [fold_left]. rewrite IH. apply step_delay_service.
Qed.

Lemma step_delay_loop (fuel : nat) (steps_to_move steps_left : list Z)
      (w : world) (j : Z) :
  rd (obj (reached (loop fuel steps_to_move steps_left w))) step_delay j
  = rd (obj w) step_delay j.
Proof.
  revert w. induction fuel as [|fuel IH]; intros w; cbn [loop];
    destruct (0 <? stepsLeft steps_left); try reflexivity.
  rewrite IH. apply step_delay_pass.
Qed.

(** [prepare] assigns cells of [direction] only. *)
Lemma prepare_frame (steps_to_move : list Z) (i : Z) (this : t)
      (a : member) (j : Z) :
  a <> direction ->
  rd (snd (prepare steps_to_move i this)) a j = rd this a j.
Proof.
  intros Ha. revert i this.
  induction steps_to_move as [|steps rest IH]; intros i this; [reflexivity|].
  cbn [prepare].
  destruct (prepare rest _ _) as [steps_left this'] eqn:E. cbn [snd].
  change this' with (snd (steps_left, this')). rewrite <- E, IH.
  destruct (0 <? steps), (steps <? 0);
    rewrite ?rd_wr_member by assumption; reflexivity.
Qed.

Lemma step_delay_step
      (fuel : nat) (steps_to_move : list Z) (w : world) (j : Z) :
  rd (obj (reached (step fuel steps_to_move w))) step_delay j
  = rd (obj w) step_delay j.
Proof.
  unfold step.
  destruct (prepare steps_to_move 0 (obj w)) as [steps_left this] eqn:E.
  rewrite step_delay_loop. cbn [obj].
  change this with (snd (steps_left, this)). rewrite <- E.
  apply prepare_frame. discriminate.
Qed.

Lemma step_delay_exec (c : call) (motor : Z) (w w' : world) :
  sets_speed_of motor c = false -> exec c w = Some w' ->
  rd (obj w') step_delay motor = rd (obj w) step_delay motor.
Proof.
  destruct c as [n p1 p2 | n p1 p2 p3 p4 | whatSpeed motor' | fuel steps];
    cbn [sets_speed_of exec]; intros Hc Hx.
  - injection Hx as <-. apply step_delay_addMotor.
  - injection Hx as <-. apply step_delay_addMotor4.
  - apply (step_delay_setSpeed_other whatSpeed motor'); [|assumption].
    apply Z.eqb_neq in Hc. congruence.
  - injection Hx as <-. apply step_delay_step.
Qed.

Lemma step_delay_exec_all (cs : list call) (motor : Z) (w w' : world) :
  no_setSpeed_of motor cs = true -> exec_all cs w = Some w' ->
  rd (obj w') step_delay motor = rd (obj w) step_delay motor.
Proof.
  unfold no_setSpeed_of. revert w.
  induction cs as [|c cs IH]; intros w; cbn [forallb exec_all].
  - intros _ [= <-]. reflexivity.
  - intros Hcs Hx. apply andb_prop in Hcs as [Hc Hcs].
    destruct (exec c w) as [w1|] eqn:E; [|discriminate].
    rewrite (IH w1 Hcs Hx).
    apply (step_delay_exec c); [|assumption].
    now apply negb_true_iff.
Qed.

(** C2, as amended: for a registered motor with S > 0 steps per revolution
    and rpm R > 0, [setSpeed] stores 60000 / (S * R), rounded toward zero,
    in the motor's [step_delay] cell whenever this quotient fits the [int]
    cell (it does unless S = R = 1), and the cell keeps this value through
    every later sequence of calls that contains no [setSpeed] for the
    motor. *)
Theorem setSpeed_interval (S R motor : Z) (w : world) :
  0 < S -> 0 < R ->
  rd (obj w) number_of_steps motor = S ->
  Z.quot 60000 (S * R) <= INT_MAX ->
  exists w',
    setSpeed R motor w = Some w' /\
    rd (obj w') step_delay motor = Z.quot 60000 (S * R) /\
    forall cs w'',
      no_setSpeed_of motor cs = true -> exec_all cs w' = Some w'' ->
      rd (obj w'') step_delay motor = Z.quot 60000 (S * R).
Proof.
  intros HS HR Hn Hfit.
  assert (Hstore : rd (obj w) number_of_steps motor <> 0) by lia.
  assert (HR0 : R <> 0) by lia.
  rewrite (setSpeed_stores R motor w Hstore HR0), Hn.
  eexists. split; [reflexivity|]. cbn [obj].
  assert (Hval : rd (wr (obj w) step_delay motor
                        (to_int (Z.quot 60000 (S * R)))) step_delay motor
                 = Z.quot 60000 (S * R)).
  { rewrite rd_wr_same. apply to_int_small.
    assert (0 <= Z.quot 60000 (S * R)) by (apply Z.quot_pos; nia).
    unfold INT_MIN, INT_BITS. change (2 ^ (16 - 1)) with 32768. lia. }
  split; [exact Hval|].
  intros cs w'' Hcs Hx.
  rewrite (step_delay_exec_all cs motor _ w'' Hcs Hx). exact Hval.
Qed.

Lemma setSpeed_interval_witness :
  exists w',
    setSpeed 60 0 full_bank = Some w' /\
    rd (obj w') step_delay 0 = Z.quot 60000 (200 * 60) /\
    forall cs w'',
      no_setSpeed_of 0 cs = true -> exec_all cs w' = Some w'' ->
      rd (obj w'') step_delay 0 = Z.quot 60000 (200 * 60).
Proof.
  apply (setSpeed_interval 200 60 0 full_bank).
  - lia.
  - lia.
  - reflexivity.
  - vm_compute. discriminate.
Defined.

(** C2, as stated, fails: for a motor of one step per revolution and one
    revolution per minute the quotient is 60000, which no [int] cell
    holds; the cell receives -5536. *)
Lemma setSpeed_interval_wraps :
  rd (obj one_step_motor) number_of_steps 0 = 1 /\
  exists w',
    setSpeed 1 0 one_step_motor = Some w' /\
    rd (obj w') step_delay 0 = -5536 /\
    rd (obj w') step_delay 0 <> Z.quot 60000 (1 * 1).
Proof.
  split; [reflexivity|].
  eexists. split; [reflexivity|]. split; [reflexivity|].
  vm_compute. discriminate.
Qed.

(** C6, as amended: [setSpeed] makes no check of the speed.  For a
    registered motor with S > 0 steps per revolution and a negative rpm R
    it stores the quotient 60000 / (S * R), rounded toward zero and
    converted to [int], in the motor's [step_delay] cell; the quotient is
    never positive. *)
Theorem setSpeed_negative (S R motor : Z) (w : world) :
  0 < S -> R < 0 ->
  rd (obj w) number_of_steps motor = S ->
  exists w',
    setSpeed R motor w = Some w' /\
    rd (obj w') step_delay motor = to_int (Z.quot 60000 (S * R)) /\
    Z.quot 60000 (S * R) <= 0.
Proof.
  intros HS HR Hn.
  assert (Hstore : rd (obj w) number_of_steps motor <> 0) by lia.
  assert (HR0 : R <> 0) by lia.
  rewrite (setSpeed_stores R motor w Hstore HR0), Hn.
  eexists. split; [reflexivity|]. cbn [obj]. rewrite rd_wr_same.
  split; [reflexivity|].
  replace (S * R) with (- (S * - R)) by lia.
  rewrite Z.quot_opp_r by nia.
  assert (0 <= Z.quot 60000 (S * - R)) by (apply Z.quot_pos; nia). lia.
Qed.

Lemma setSpeed_negative_witness :
  exists w',
    setSpeed (-1) 0 full_bank = Some w' /\
    rd (obj w') step_delay 0 = to_int (Z.quot 60000 (200 * -1)) /\
    Z.quot 60000 (200 * -1) <= 0.
Proof.
  apply (setSpeed_negative 200 (-1) 0 full_bank).
  - lia.
  - lia.
  - reflexivity.
Defined.

(** C6, as stated, fails: a call with rpm -1 on a 200-step motor is not
    rejected; it replaces the content 7 of the motor's [step_delay] cell
    by the interval -300. *)
Lemma setSpeed_negative_not_rejected :
  rd (obj full_bank) step_delay 0 = 7 /\
  exists w',
    setSpeed (-1) 0 full_bank = Some w' /\
    rd (obj w') step_delay 0 = -300 /\
    obj w' <> obj full_bank.
Proof.
  split; [reflexivity|].
  eexists. split; [reflexivity|]. split; [reflexivity|].
  intros Heq.
  assert (H : rd (wr (obj full_bank) step_delay 0 (-300)) step_delay 0
              = rd (obj full_bank) step_delay 0).
  { f_equal. exact Heq. }
  vm_compute in H. discriminate.
Qed.

(** ** Moving *)

Lemma prepare_steps_left (steps_to_move : list Z) (i : Z) (this : t) :
  fst (prepare steps_to_move i this) = remaining steps_to_move.
Proof.
  revert i this.
  induction steps_to_move as [|steps rest IH]; intros i this; [reflexivity|].
  cbn [prepare remaining map].
  specialize (IH (to_int (i + 1))
                 (if steps <? 0
                  then wr (if 0 <? steps then wr this direction i 1 else this)
                          direction i 0
                  else if 0 <? steps then wr this direction i 1 else this)).
  destruct (prepare rest _ _) as [steps_left this'].
  cbn [fst] in *. now rewrite IH.
Qed.

Lemma stepsLeft_from (steps_left : list Z) (m : Z) :
  m <= fold_left (fun max_steps_left steps =>
                    if max_steps_left <? steps then steps else max_steps_left)
                 steps_left m.
Proof.
  revert m. induction steps_left as [|x l IH]; intros m; cbn [fold_left];
    [lia|].
  destruct (Z.ltb_spec m x); [specialize (IH x) | specialize (IH m)]; lia.
Qed.

Lemma stepsLeft_ge (steps_left : list Z) (m x : Z) :
  In x steps_left ->
  x <= fold_left (fun max_steps_left steps =>
                    if max_steps_left <? steps then steps else max_steps_left)
                 steps_left m.
Proof.
  revert m. induction steps_left as [|y l IH]; intros m; [intros []|].
  intros [-> | Hin]; cbn [fold_left].
  - destruct (Z.ltb_spec m x).
    + apply stepsLeft_from.
    + pose proof (stepsLeft_from l m). lia.
  - now apply IH.
Qed.

Lemma stepsLeft_app (l l' : list Z) : stepsLeft l <= stepsLeft (l ++ l').
Proof. unfold stepsLeft. rewrite fold_left_app. apply stepsLeft_from. Qed.


(** Once entered with a positive counter, the [while] loop is still
    running after any number of executions of its body: [steps_left] is
    the same list at every test. *)
Lemma loop_running (steps_to_move steps_left : list Z) :
  0 < stepsLeft steps_left ->
  forall fuel w, exists w', loop fuel steps_to_move steps_left w = Running w'.
Proof.
  intros Hpos. apply Z.ltb_lt in Hpos.
  induction fuel as [|fuel IH]; intros w; cbn [loop]; rewrite Hpos.
  - now exists w.
  - apply IH.
Qed.

Lemma step_running (steps_to_move : list Z) (w : world) :
  0 < stepsLeft (remaining steps_to_move) ->
  forall fuel, exists w', step fuel steps_to_move w = Running w'.
Proof.
  intros Hpos fuel. unfold step.
  pose proof (prepare_steps_left steps_to_move 0 (obj w)) as E.
  destruct (prepare steps_to_move 0 (obj w)) as [steps_left this].
  cbn [fst] in E. subst steps_left. apply loop_running.
  pose proof (stepsLeft_app (remaining steps_to_move)
                (unassigned (hw w) (length steps_to_move)
                            (motor_count (obj w)))). lia.
Qed.

(** C3: the code has no statement that decrements a remaining-steps
    counter, so a call of [step] with any nonzero entry (of a magnitude an
    [int] holds) never returns: after every number of executions of the
    loop body it is still inside the loop. *)
Theorem step_never_returns (steps_to_move : list Z) (w : world) :
  (exists steps,
      In steps steps_to_move /\ steps <> 0 /\ INT_MIN < steps <= INT_MAX) ->
  forall fuel, exists w', step fuel steps_to_move w = Running w'.
Proof.
  intros (steps & Hin & Hnz & Hrange).
  apply step_running.
  assert (Hx : In (to_int (Z.abs steps)) (remaining steps_to_move))
    by (unfold remaining;
        now apply in_map with (f := fun s => to_int (Z.abs s))).
  pose proof (stepsLeft_ge _ 0 _ Hx) as Hge.
  fold (stepsLeft (remaining steps_to_move)) in Hge.
  rewrite to_int_small in Hge.
  - lia.
  - revert Hrange. unfold INT_MIN, INT_MAX, INT_BITS.
    change (2 ^ (16 - 1)) with 32768. lia.
Qed.

Lemma step_never_returns_witness :
  (exists steps, In steps [1; 0] /\ steps <> 0 /\ INT_MIN < steps <= INT_MAX) /\
  exists w', step 3 [1; 0] two_motors = Running w'.
Proof.
  assert (H : exists steps,
             In steps [1; 0] /\ steps <> 0 /\ INT_MIN < steps <= INT_MAX).
  { exists 1. split; [now left|]. split; [discriminate|].
    split; reflexivity || (vm_compute; discriminate). }
  split; [exact H|].
  exact (step_never_returns [1; 0] two_motors H 3%nat).
Defined.



(** ** Lists of another length *)

Lemma service_ticks (motor : Z) (w : world) :
  (ticks (hw w) < ticks (hw (service motor w)))%nat.
Proof.
  unfold service, millis. cbv zeta.
  destruct (_ >=? _); cbn [hw ticks emit]; lia.
Qed.

Lemma pass_ticks (steps_to_move : list Z) (w : world) :
  (ticks (hw w) + length steps_to_move
   <= ticks (hw (pass steps_to_move w)))%nat.
Proof.
  unfold pass. revert w.
  induction steps_to_move as [|motor rest IH]; intros w;
    cbn [fold_left length]; [lia|].
  pose proof (service_ticks motor w). specialize (IH (service motor w)). lia.
Qed.

Lemma loop_running_ticks (steps_to_move steps_left : list Z) :
  0 < stepsLeft steps_left ->
  forall fuel w,
  exists w',
    loop fuel steps_to_move steps_left w = Running w' /\
    (ticks (hw w) + fuel * length steps_to_move <= ticks (hw w'))%nat.
Proof.
  intros Hpos. apply Z.ltb_lt in Hpos.
  induction fuel as [|fuel IH]; intros w; cbn [loop]; rewrite Hpos.
  - exists w. split; [reflexivity | lia].
  - destruct (IH (pass steps_to_move w)) as (w' & Hrun & Hticks).
    exists w'. split; [exact Hrun|].
    pose proof (pass_ticks steps_to_move w). lia.
Qed.

Lemma remaining_positive (steps_to_move : list Z) (steps : Z) :
  In steps steps_to_move -> steps <> 0 -> INT_MIN < steps <= INT_MAX ->
  0 < stepsLeft (remaining steps_to_move).
Proof.
  intros Hin Hnz Hrange.
  assert (Hx : In (to_int (Z.abs steps)) (remaining steps_to_move))
    by (unfold remaining;
        now apply in_map with (f := fun s => to_int (Z.abs s))).
  pose proof (stepsLeft_ge _ 0 _ Hx) as Hge.
  fold (stepsLeft (remaining steps_to_move)) in Hge.
  rewrite to_int_small in Hge; [lia|].
  revert Hrange. unfold INT_MIN, INT_MAX, INT_BITS.
  change (2 ^ (16 - 1)) with 32768. lia.
Qed.

(** C5, as amended: [step] compares no lengths and has no failure result.
    A call whose list has fewer entries than there are motors, and in it
    a nonzero count (of a magnitude an [int] holds), is not refused: it
    enters the stepping loop, and every execution of the loop body
    services the motor named by each entry, reading the clock at least
    once for it. *)
Theorem step_short_list_not_refused (steps_to_move : list Z) (w : world) :
  Z.of_nat (length steps_to_move) < motor_count (obj w) ->
  (exists steps,
      In steps steps_to_move /\ steps <> 0 /\ INT_MIN < steps <= INT_MAX) ->
  forall fuel,
  exists w',
    step fuel steps_to_move w = Running w' /\
    (ticks (hw w) + fuel * length steps_to_move <= ticks (hw w'))%nat.
Proof.
  intros _ (steps & Hin & Hnz & Hrange) fuel.
  pose proof (remaining_positive steps_to_move steps Hin Hnz Hrange) as Hpos.
  unfold step.
  pose proof (prepare_steps_left steps_to_move 0 (obj w)) as E.
  destruct (prepare steps_to_move 0 (obj w)) as [steps_left this].
  cbn [fst] in E. subst steps_left.
  apply (loop_running_ticks steps_to_move _) with
    (w := {| obj := this; hw := hw w |}).
  pose proof (stepsLeft_app (remaining steps_to_move)
                (unassigned (hw w) (length steps_to_move)
                            (motor_count (obj w)))). lia.
Qed.

Lemma step_short_list_not_refused_witness :
  Z.of_nat (length [1]) < motor_count (obj two_motors) /\
  exists w',
    step 1 [1] two_motors = Running w' /\
    (ticks (hw two_motors) + 1 * length [1] <= ticks (hw w'))%nat.
Proof.
  assert (Hlen : Z.of_nat (length [1]) < motor_count (obj two_motors))
    by reflexivity.
  split; [exact Hlen|].
  apply (step_short_list_not_refused [1] two_motors Hlen).
  exists 1. split; [now left|]. split; [discriminate|].
  split; reflexivity || (vm_compute; discriminate).
Defined.

(** C5, as stated, fails: with two motors registered, a call of [step]
    with a list of one entry is not refused; its first execution of the
    loop body writes the pins 4 and 5 of motor 1. *)
Lemma step_wrong_length_writes :
  Z.of_nat (length [1]) <> motor_count (obj two_motors) /\
  writes (hw two_motors) = [] /\
  writes (hw (reached (step 1 [1] two_motors)))
    = [digitalWrite 4 LOW; digitalWrite 5 HIGH] /\
  ~ no_pin_write [1] two_motors.
Proof.
  split; [vm_compute; discriminate|].
  split; [reflexivity|]. split; [vm_compute; reflexivity|].
  intros H. specialize (H 1%nat). vm_compute in H. discriminate.
Qed.

(** * Further properties of the code *)

(** ** [stepsLeft] *)

Lemma stepsLeft_from_or_in (steps_left : list Z) (m : Z) :
  let r := fold_left (fun max_steps_left steps =>
                        if max_steps_left <? steps then steps
                        else max_steps_left) steps_left m in
  r = m \/ In r steps_left.
Proof.
  revert m. induction steps_left as [|x l IH]; intros m; cbn [fold_left].
  - now left.
  - destruct (Z.ltb_spec m x).
    + destruct (IH x) as [-> | Hin]; [right; now left | right; now right].
    + destruct (IH m) as [-> | Hin]; [now left | right; now right].
Qed.

(** X1: [stepsLeft] returns the largest element of the array, or 0 when no
    element is positive (in particular for the empty array): the result is
    never negative, no element exceeds it, and it is 0 or one of the
    elements. *)
Theorem stepsLeft_is_max (steps_left : list Z) :
  0 <= stepsLeft steps_left /\
  (forall steps, In steps steps_left -> steps <= stepsLeft steps_left) /\
  (stepsLeft steps_left = 0 \/ In (stepsLeft steps_left) steps_left).
Proof.
  split; [apply stepsLeft_from|].
  split; [intros steps; apply stepsLeft_ge|].
  apply (stepsLeft_from_or_in steps_left 0).
Qed.

(** ** Registration *)

(** X2: a registration (two-wire or four-wire) assigns cells at the index
    [motor_count] only: every cell of every other motor keeps its
    content. *)
Theorem addMotor_other_motors
        (n pinA pinB pinC pinD : Z) (w : world) (a : member) (j : Z) :
  j <> motor_count (obj w) ->
  rd (obj (addMotor n pinA pinB w)) a j = rd (obj w) a j /\
  rd (obj (addMotor4 n pinA pinB pinC pinD w)) a j = rd (obj w) a j.
Proof.
  intros Hj. unfold addMotor, addMotor4. cbn [obj hw].
  rewrite !rd_set_motor_count.
  split; rewrite !rd_wr_index by assumption; reflexivity.
Qed.

Lemma addMotor_other_motors_witness :
  0 <> motor_count (obj full_bank) /\
  rd (obj (addMotor 48 10 11 full_bank)) number_of_steps 0 = 200 /\
  rd (obj (addMotor4 48 4 5 6 7 full_bank)) motor_pin_2 0 = 9.
Proof.
  assert (H : 0 <> motor_count (obj full_bank)) by (vm_compute; discriminate).
  split; [exact H|]. split.
  - exact (proj1 (addMotor_other_motors 48 10 11 0 0 full_bank
                                        number_of_steps 0 H)).
  - exact (proj2 (addMotor_other_motors 48 4 5 6 7 full_bank
                                        motor_pin_2 0 H)).
Defined.

(** X3: a two-wire registration configures its two pins as outputs, pin 1
    first, and a four-wire registration its four pins in order; neither
    writes a pin level or reads the clock. *)
Theorem addMotor_pin_modes (n pinA pinB pinC pinD : Z) (w : world) :
  (trace (hw (addMotor n pinA pinB w))
     = trace (hw w) ++ [pinMode pinA OUTPUT; pinMode pinB OUTPUT] /\
   writes (hw (addMotor n pinA pinB w)) = writes (hw w) /\
   ticks (hw (addMotor n pinA pinB w)) = ticks (hw w)) /\
  (trace (hw (addMotor4 n pinA pinB pinC pinD w))
     = trace (hw w) ++ [pinMode pinA OUTPUT; pinMode pinB OUTPUT;
                        pinMode pinC OUTPUT; pinMode pinD OUTPUT] /\
   writes (hw (addMotor4 n pinA pinB pinC pinD w)) = writes (hw w) /\
   ticks (hw (addMotor4 n pinA pinB pinC pinD w)) = ticks (hw w)).
Proof.
  unfold addMotor, addMotor4, writes, emit. cbn [obj hw trace ticks].
  autorewrite with cells.
  split; (split; [reflexivity|]); (split; [|reflexivity]);
    rewrite filter_app; cbn [filter is_write]; apply app_nil_r.
Qed.

(** ** One servicing of a motor *)

Lemma service_not_due (motor : Z) (w : world) :
  due motor w = false ->
  service motor w = {| obj := obj w; hw := after_millis 1 (hw w) |}.
Proof.
  unfold due, service, millis. cbn [fst]. cbv zeta. intros ->. reflexivity.
Qed.

Lemma service_due_board (motor : Z) (w : world) :
  due motor w = true ->
  hw (service motor w)
  = emit (stepMotor (obj (service motor w))
                    (Z.rem (rd (obj (service motor w)) step_number motor) 4)
                    motor)
         (after_millis 2 (hw w)).
Proof.
  unfold due, service, millis. cbn [fst]. cbv zeta. intros ->. reflexivity.
Qed.

Lemma service_frame (motor : Z) (w : world) (a : member) (j : Z) :
  a <> step_number ->
  a <> last_step_time \/ j <> motor ->
  rd (obj (service motor w)) a j = rd (obj w) a j.
Proof.
  intros Hs H. unfold service, millis. cbv zeta.
  destruct (_ >=? _); [|reflexivity]. cbn [obj hw].
  rewrite rd_move_down_member by assumption.
  destruct (_ =? 0); rewrite ?(rd_wr_member _ step_number) by assumption;
    (destruct H as [H | H];
     [now apply rd_wr_member | now apply rd_wr_index]).
Qed.

Lemma service_motor_count (motor : Z) (w : world) :
  motor_count (obj (service motor w)) = motor_count (obj w) /\
  allocated (obj (service motor w)) = allocated (obj w).
Proof.
  unfold service, millis. cbv zeta.
  destruct (_ >=? _); [|split; reflexivity]. cbn [obj hw].
  destruct (_ =? 0); split; reflexivity.
Qed.

Lemma to_ulong_small (z : Z) : 0 <= z < 2 ^ LONG_BITS -> to_ulong z = z.
Proof. intros H. unfold to_ulong. now apply Z.mod_small. Qed.

Lemma to_ulong_range (z : Z) : 0 <= to_ulong z < 2 ^ LONG_BITS.
Proof. unfold to_ulong. apply Z.mod_pos_bound. reflexivity. Qed.

Lemma INT_MAX_lt_ulong : INT_MAX < 2 ^ LONG_BITS.
Proof. reflexivity. Qed.

(** While the time stamp of the motor is not in the future and its
    interval is not negative, the test of line 179 compares the elapsed
    time with the interval. *)
Lemma due_elapsed (motor : Z) (w : world) :
  0 <= rd (obj w) last_step_time motor <= fst (millis (hw w)) ->
  0 <= rd (obj w) step_delay motor <= INT_MAX ->
  due motor w
  = (rd (obj w) step_delay motor
     <=? fst (millis (hw w)) - rd (obj w) last_step_time motor).
Proof.
  intros Hlast Hdelay. unfold due.
  pose proof (to_ulong_range (clock (hw w) (ticks (hw w)))) as Hnow.
  pose proof INT_MAX_lt_ulong.
  change (fst (millis (hw w))) with (to_ulong (clock (hw w) (ticks (hw w))))
    in *.
  rewrite (to_ulong_small (_ - _)), (to_ulong_small (rd _ _ _)) by lia.
  apply Z.geb_leb.
Qed.

(** X4: the timing gate of line 179.  For a motor whose time stamp is not
    in the future and whose interval is a non-negative [int], a servicing
    that finds less than the interval elapsed only reads the clock: the
    object and the pins are left alone.  One that finds the interval
    elapsed reads the clock a second time, stores that reading (converted
    to [int]) as the motor's new time stamp and emits the coil pattern of
    the motor's new step number. *)
Theorem service_gate (motor : Z) (w : world) :
  0 <= rd (obj w) last_step_time motor <= fst (millis (hw w)) ->
  0 <= rd (obj w) step_delay motor <= INT_MAX ->
  (fst (millis (hw w)) - rd (obj w) last_step_time motor
     < rd (obj w) step_delay motor ->
   service motor w = {| obj := obj w; hw := after_millis 1 (hw w) |}) /\
  (rd (obj w) step_delay motor
     <= fst (millis (hw w)) - rd (obj w) last_step_time motor ->
   rd (obj (service motor w)) last_step_time motor
     = to_int (fst (millis (after_millis 1 (hw w)))) /\
   hw (service motor w)
     = emit (stepMotor (obj (service motor w))
               (Z.rem (rd (obj (service motor w)) step_number motor) 4)
               motor)
            (after_millis 2 (hw w))).
Proof.
  intros Hlast Hdelay.
  pose proof (due_elapsed motor w Hlast Hdelay) as Hdue.
  split; intros Hcmp.
  - apply service_not_due. rewrite Hdue. now apply Z.leb_gt.
  - apply Z.leb_le in Hcmp. rewrite <- Hdue in Hcmp.
    split; [|now apply service_due_board].
    revert Hcmp. unfold due, service, millis. cbn [fst]. cbv zeta.
    intros ->. cbn [obj hw clock ticks after_millis Nat.add].
    rewrite rd_move_down_member by discriminate.
    destruct (_ =? 0); rewrite ?rd_wr_member by discriminate;
      apply rd_wr_same.
Qed.

Lemma service_gate_witness :
  rd (obj (service 0 two_motors)) last_step_time 0 = 10 /\
  service 0 (fresh 1 7 10)
  = {| obj := obj (fresh 1 7 10); hw := after_millis 1 (hw (fresh 1 7 10)) |}.
Proof.
  split.
  - assert (H1 : 0 <= rd (obj two_motors) last_step_time 0
                 <= fst (millis (hw two_motors)))
      by (vm_compute; split; discriminate).
    assert (H2 : 0 <= rd (obj two_motors) step_delay 0 <= INT_MAX)
      by (vm_compute; split; discriminate).
    assert (H3 : rd (obj two_motors) step_delay 0
                 <= fst (millis (hw two_motors))
                    - rd (obj two_motors) last_step_time 0)
      by (vm_compute; discriminate).
    rewrite (proj1 (proj2 (service_gate 0 two_motors H1 H2) H3)).
    reflexivity.
  - assert (H1 : 0 <= rd (obj (fresh 1 7 10)) last_step_time 0
                 <= fst (millis (hw (fresh 1 7 10))))
      by (vm_compute; split; discriminate).
    assert (H2 : 0 <= rd (obj (fresh 1 7 10)) step_delay 0 <= INT_MAX)
      by (vm_compute; split; discriminate).
    apply (proj1 (service_gate 0 (fresh 1 7 10) H1 H2)).
    vm_compute. reflexivity.
Defined.

(** X5: a step taken does not count the motor's step number up or down.
    Line 182 compares the array pointer with 1, so the reverse branch
    (lines 188-191) is the one executed, and line 191 decrements the array
    pointer, not the cell.  After a step taken by [motor], what
    [step_number[j]] was is found at [step_number[j + 1]], for every
    index j; only a 0 found at [step_number[motor]] has first been
    replaced by [number_of_steps[motor]] (lines 188-190). *)
Theorem service_moves_pointer (motor : Z) (w : world) :
  due motor w = true ->
  forall j,
    rd (obj (service motor w)) step_number (j + 1)
    = if (j =? motor) && (rd (obj w) step_number motor =? 0)
      then rd (obj w) number_of_steps motor
      else rd (obj w) step_number j.
Proof.
  unfold due, service, millis. cbn [fst]. cbv zeta.
  intros -> j. cbn [obj hw].
  rewrite rd_move_down_same. replace (j + 1 - 1) with j by lia.
  rewrite !(rd_wr_member _ last_step_time) by discriminate.
  destruct (Z.eqb_spec (rd (obj w) step_number motor) 0) as [E0 | E0].
  - destruct (Z.eqb_spec j motor) as [-> | Hj]; cbn [andb].
    + apply rd_wr_same.
    + rewrite rd_wr_index by assumption.
      now rewrite rd_wr_member by discriminate.
  - rewrite andb_false_r. now rewrite rd_wr_member by discriminate.
Qed.

Lemma service_moves_pointer_witness :
  rd (obj (service 1 two_motors)) step_number (1 + 1)
  = if (1 =? 1) && (rd (obj two_motors) step_number 1 =? 0)
    then rd (obj two_motors) number_of_steps 1
    else rd (obj two_motors) step_number 1.
Proof.
  apply (service_moves_pointer 1 two_motors). reflexivity.
Defined.

(** ** The coil patterns, continued *)

(** Splits a goal about a phase between 0 and 3 into its four cases. *)
Ltac phases ph H :=
  let E := fresh "E" in
  assert (E : ph = 0 \/ ph = 1 \/ ph = 2 \/ ph = 3) by lia;
  clear H; destruct E as [-> | [-> | [-> | ->]]].

(** [stepMotor] emits pin writes only. *)
Lemma stepMotor_writes_only (this : t) (thisStep motor : Z) :
  forallb is_write (stepMotor this thisStep motor) = true.
Proof.
  unfold stepMotor. rewrite forallb_app.
  destruct (_ =? 2), (_ =? 4); cbn [forallb andb];
    destruct thisStep as [|[[p|p|]|[p|p|]|]|p]; reflexivity.
Qed.

(** X7: whatever the phase and whatever the motor's cells hold,
    [stepMotor] only writes levels (it never changes a pin mode) and only
    to the pins recorded for that motor: to none, to pins 1 and 2 in this
    order, or to pins 1 to 4 in this order. *)
Theorem stepMotor_own_pins (this : t) (thisStep motor : Z) :
  forallb is_write (stepMotor this thisStep motor) = true /\
  (map pin_of (stepMotor this thisStep motor) = [] \/
   map pin_of (stepMotor this thisStep motor)
     = [rd this motor_pin_1 motor; rd this motor_pin_2 motor] \/
   map pin_of (stepMotor this thisStep motor)
     = [rd this motor_pin_1 motor; rd this motor_pin_2 motor;
        rd this motor_pin_3 motor; rd this motor_pin_4 motor]).
Proof.
  split; [apply stepMotor_writes_only|].
  destruct (Z_lt_le_dec thisStep 0) as [Hlo | Hlo];
    [| destruct (Z_lt_le_dec 3 thisStep) as [Hhi | Hhi]].
  - unfold stepMotor. rewrite !switch_no_case by (now left).
    destruct (_ =? 2), (_ =? 4); now left.
  - unfold stepMotor. rewrite !switch_no_case by (now right).
    destruct (_ =? 2), (_ =? 4); now left.
  - assert (H : 0 <= thisStep <= 3) by lia. clear Hlo Hhi.
    unfold stepMotor.
    destruct (Z.eqb_spec (rd this pin_count motor) 2) as [E2 | E2];
      destruct (Z.eqb_spec (rd this pin_count motor) 4) as [E4 | E4];
      try (exfalso; lia); phases thisStep H; cbn; auto.
Qed.

(** X8: the two tables are two views of one cycle, as the header of the
    file describes it.  In every phase the four-wire pattern drives pins
    1 and 2 with opposite levels and pins 3 and 4 with opposite levels,
    and the two-wire pattern consists of the levels the four-wire pattern
    gives to its pins 2 and 3. *)
Theorem two_wire_is_middle_of_four_wire
        (this2 this4 : t) (motor2 motor4 thisStep : Z) :
  rd this2 pin_count motor2 = 2 ->
  rd this4 pin_count motor4 = 4 ->
  0 <= thisStep <= 3 ->
  exists a b,
    levels (stepMotor this2 thisStep motor2) = [a; b] /\
    levels (stepMotor this4 thisStep motor4)
      = [inverse a; a; b; inverse b].
Proof.
  intros H2 H4 Hph. unfold stepMotor. rewrite H2, H4.
  phases thisStep Hph; cbn; eauto.
Qed.

Lemma two_wire_is_middle_of_four_wire_witness :
  exists a b,
    levels (stepMotor one_two_wire 2 0) = [a; b] /\
    levels (stepMotor one_four_wire 2 0) = [inverse a; a; b; inverse b].
Proof.
  apply (two_wire_is_middle_of_four_wire one_two_wire one_four_wire 0 0 2).
  - reflexivity.
  - reflexivity.
  - lia.
Defined.

(** X9: going from one phase to the next in the cycle 0, 1, 2, 3, 0
    changes the level of exactly one pin of a two-wire motor and of
    exactly two pins of a four-wire motor. *)
Theorem next_phase_differences (this : t) (motor thisStep : Z) :
  0 <= thisStep <= 3 ->
  (rd this pin_count motor = 2 ->
   differences (levels (stepMotor this thisStep motor))
               (levels (stepMotor this ((thisStep + 1) mod 4) motor))
   = 1%nat) /\
  (rd this pin_count motor = 4 ->
   differences (levels (stepMotor this thisStep motor))
               (levels (stepMotor this ((thisStep + 1) mod 4) motor))
   = 2%nat).
Proof.
  intros Hph. unfold stepMotor.
  split; intros ->; phases thisStep Hph; reflexivity.
Qed.

Lemma next_phase_differences_witness :
  differences (levels (stepMotor one_two_wire 3 0))
              (levels (stepMotor one_two_wire ((3 + 1) mod 4) 0)) = 1%nat /\
  differences (levels (stepMotor one_four_wire 3 0))
              (levels (stepMotor one_four_wire ((3 + 1) mod 4) 0)) = 2%nat.
Proof.
  assert (H : 0 <= 3 <= 3) by lia.
  split.
  - apply (proj1 (next_phase_differences one_two_wire 0 3 H)). reflexivity.
  - apply (proj2 (next_phase_differences one_four_wire 0 3 H)). reflexivity.
Defined.

(** [stepMotor] reads the motor's pin count and pins and nothing else. *)
Lemma stepMotor_same_wiring (this this' : t) (thisStep motor : Z) :
  (forall a, wiring a = true -> rd this' a motor = rd this a motor) ->
  stepMotor this' thisStep motor = stepMotor this thisStep motor.
Proof.
  intros H. unfold stepMotor.
  now rewrite (H pin_count), (H motor_pin_1), (H motor_pin_2),
    (H motor_pin_3), (H motor_pin_4).
Qed.

Lemma service_wiring (motor : Z) (w : world) (a : member) (j : Z) :
  wiring a = true -> rd (obj (service motor w)) a j = rd (obj w) a j.
Proof.
  intros Ha. apply service_frame.
  - intros ->. discriminate.
  - left. intros ->. discriminate.
Qed.

Lemma stepMotor_pin_list (this : t) (thisStep motor : Z) :
  map pin_of (stepMotor this thisStep motor) = [] \/
  map pin_of (stepMotor this thisStep motor)
    = [rd this motor_pin_1 motor; rd this motor_pin_2 motor] \/
  map pin_of (stepMotor this thisStep motor)
    = [rd this motor_pin_1 motor; rd this motor_pin_2 motor;
       rd this motor_pin_3 motor; rd this motor_pin_4 motor].
Proof.
  unfold stepMotor.
  destruct (Z.eqb_spec (rd this pin_count motor) 2) as [E2 | E2];
    destruct (Z.eqb_spec (rd this pin_count motor) 4) as [E4 | E4];
    try (exfalso; lia);
    destruct thisStep as [|[[p|p|]|[p|p|]|]|p]; cbn; auto.
Qed.

(** X10: a servicing of a motor, whether it takes a step or not, adds to
    the record of pin operations either nothing or the level writes of
    one coil pattern, addressed to that motor's own pins: to its pins 1
    and 2, or to its pins 1 to 4, in pin order. *)
Theorem service_writes_own_pins (motor : Z) (w : world) :
  exists es,
    trace (hw (service motor w)) = trace (hw w) ++ es /\
    forallb is_write es = true /\
    (map pin_of es = [] \/
     map pin_of es
       = [rd (obj w) motor_pin_1 motor; rd (obj w) motor_pin_2 motor] \/
     map pin_of es
       = [rd (obj w) motor_pin_1 motor; rd (obj w) motor_pin_2 motor;
          rd (obj w) motor_pin_3 motor; rd (obj w) motor_pin_4 motor]).
Proof.
  destruct (due motor w) eqn:Hdue.
  - rewrite (service_due_board motor w Hdue). cbn [emit trace after_millis].
    eexists. split; [reflexivity|]. split; [apply stepMotor_writes_only|].
    rewrite (stepMotor_same_wiring (obj w))
      by (intros a Ha; now apply service_wiring).
    apply stepMotor_pin_list.
  - rewrite (service_not_due motor w Hdue). cbn [hw trace after_millis].
    exists []. split; [now rewrite app_nil_r|]. split; [reflexivity|].
    now left.
Qed.

(** ** What a move leaves alone *)

Lemma pass_frame (steps_to_move : list Z) (w : world) (a : member) (j : Z) :
  a <> step_number ->
  a <> last_step_time \/ ~ In j steps_to_move ->
  rd (obj (pass steps_to_move w)) a j = rd (obj w) a j.
Proof.
  intros Hs. unfold pass. revert w.
  induction steps_to_move as [|motor rest IH]; intros w H; [reflexivity|].
  cbn [fold_left]. rewrite IH.
  - apply service_frame; [assumption|].
    destruct H as [H | H]; [now left|].
    right. intros ->. apply H. now left.
  - destruct H as [H | H]; [now left|].
    right. intros Hin. apply H. now right.
Qed.

Lemma loop_frame (fuel : nat) (steps_to_move steps_left : list Z)
      (w : world) (a : member) (j : Z) :
  a <> step_number ->
  a <> last_step_time \/ ~ In j steps_to_move ->
  rd (obj (reached (loop fuel steps_to_move steps_left w))) a j
  = rd (obj w) a j.
Proof.
  intros Hs H. revert w. induction fuel as [|fuel IH]; intros w; cbn [loop];
    destruct (0 <? stepsLeft steps_left); try reflexivity.
  rewrite IH. now apply pass_frame.
Qed.

Lemma step_frame (fuel : nat) (steps_to_move : list Z) (w : world)
      (a : member) (j : Z) :
  a <> direction -> a <> step_number ->
  a <> last_step_time \/ ~ In j steps_to_move ->
  rd (obj (reached (step fuel steps_to_move w))) a j = rd (obj w) a j.
Proof.
  intros Hd Hs H. unfold step.
  destruct (prepare steps_to_move 0 (obj w)) as [steps_left this] eqn:E.
  rewrite loop_frame by assumption. cbn [obj].
  change this with (snd (steps_left, this)). rewrite <- E.
  now apply prepare_frame.
Qed.

(** X11: [step] takes the motors it services from the values of the
    entries of [steps_to_move] (line 178): the time stamp of a motor whose
    index is not among these values is never assigned; at every point the
    call reaches it is what it was before the call. *)
Theorem step_stamps_only_entries
        (fuel : nat) (steps_to_move : list Z) (w : world) (j : Z) :
  ~ In j steps_to_move ->
  rd (obj (reached (step fuel steps_to_move w))) last_step_time j
  = rd (obj w) last_step_time j.
Proof.
  intros Hj. apply step_frame; try discriminate. now right.
Qed.

Lemma step_stamps_only_entries_witness :
  ~ In 0 [1; 1] /\
  rd (obj (reached (step 9 [1; 1] two_motors))) last_step_time 0
    = rd (obj two_motors) last_step_time 0.
Proof.
  assert (H : ~ In 0 [1; 1])
    by (intros [H | [H | []]]; discriminate).
  split; [exact H|].
  exact (step_stamps_only_entries 9 [1; 1] two_motors 0 H).
Defined.

Lemma service_trace (motor : Z) (w : world) :
  clock (hw (service motor w)) = clock (hw w) /\
  exists es,
    trace (hw (service motor w)) = trace (hw w) ++ es /\
    forallb is_write es = true.
Proof.
  destruct (due motor w) eqn:Hdue.
  - rewrite (service_due_board motor w Hdue).
    cbn [emit clock trace after_millis].
    split; [reflexivity|]. eexists. split; [reflexivity|].
    apply stepMotor_writes_only.
  - rewrite (service_not_due motor w Hdue). cbn [hw clock trace after_millis].
    split; [reflexivity|]. exists []. now rewrite app_nil_r.
Qed.

Lemma pass_trace (steps_to_move : list Z) (w : world) :
  clock (hw (pass steps_to_move w)) = clock (hw w) /\
  exists es,
    trace (hw (pass steps_to_move w)) = trace (hw w) ++ es /\
    forallb is_write es = true.
Proof.
  unfold pass. revert w.
  induction steps_to_move as [|motor rest IH]; intros w; cbn [fold_left].
  - split; [reflexivity|]. exists []. now rewrite app_nil_r.
  - destruct (IH (service motor w)) as [Hc (es2 & Ht2 & Hw2)].
    destruct (service_trace motor w) as [Hc1 (es1 & Ht1 & Hw1)].
    split; [congruence|]. exists (es1 ++ es2).
    rewrite Ht2, Ht1, app_assoc, forallb_app, Hw1, Hw2. now split.
Qed.

Lemma loop_trace (fuel : nat) (steps_to_move steps_left : list Z) (w : world) :
  clock (hw (reached (loop fuel steps_to_move steps_left w))) = clock (hw w) /\
  exists es,
    trace (hw (reached (loop fuel steps_to_move steps_left w)))
    = trace (hw w) ++ es /\
    forallb is_write es = true.
Proof.
  revert w. induction fuel as [|fuel IH]; intros w; cbn [loop];
    destruct (0 <? stepsLeft steps_left); cbn [reached];
    try (split; [reflexivity|]; exists []; now rewrite app_nil_r).
  destruct (IH (pass steps_to_move w)) as [Hc (es2 & Ht2 & Hw2)].
  destruct (pass_trace steps_to_move w) as [Hc1 (es1 & Ht1 & Hw1)].
  split; [congruence|]. exists (es1 ++ es2).
  rewrite Ht2, Ht1, app_assoc, forallb_app, Hw1, Hw2. now split.
Qed.

(** X12: a call of [step] only adds to the record of pin operations, and
    what it adds are level writes: it never changes a pin mode, and the
    operations made before the call stay as they were. *)
Theorem step_only_writes_levels
        (fuel : nat) (steps_to_move : list Z) (w : world) :
  exists es,
    trace (hw (reached (step fuel steps_to_move w))) = trace (hw w) ++ es /\
    forallb is_write es = true.
Proof.
  unfold step.
  destruct (prepare steps_to_move 0 (obj w)) as [steps_left this].
  apply (loop_trace fuel steps_to_move _ {| obj := this; hw := hw w |}).
Qed.

(** ** Directions *)

Lemma prepare_direction_below (steps_to_move : list Z) (i j : Z) (this : t) :
  0 <= i -> i + Z.of_nat (length steps_to_move) <= INT_MAX -> j < i ->
  rd (snd (prepare steps_to_move i this)) direction j = rd this direction j.
Proof.
  revert i this.
  induction steps_to_move as [|steps rest IH]; intros i this Hi Hlen Hj;
    [reflexivity|].
  cbn [prepare length] in *.
  assert (Hmin : INT_MIN <= 0)
    by (unfold INT_MIN, INT_BITS; change (2 ^ (16 - 1)) with 32768; lia).
  rewrite to_int_small by lia.
  destruct (prepare rest (i + 1) _) as [steps_left this'] eqn:E. cbn [snd].
  change this' with (snd (steps_left, this')). rewrite <- E.
  rewrite IH by lia.
  destruct (0 <? steps), (steps <? 0); rewrite ?rd_wr_index by lia;
    reflexivity.
Qed.

Lemma prepare_direction_at (steps_to_move : list Z) (i : Z) (this : t)
      (k : nat) (steps : Z) :
  0 <= i -> i + Z.of_nat (length steps_to_move) <= INT_MAX ->
  nth_error steps_to_move k = Some steps ->
  rd (snd (prepare steps_to_move i this)) direction (i + Z.of_nat k)
  = if 0 <? steps then 1
    else if steps <? 0 then 0
         else rd this direction (i + Z.of_nat k).
Proof.
  revert i this k.
  induction steps_to_move as [|s rest IH]; intros i this k Hi Hlen Hk;
    [destruct k; discriminate|].
  cbn [prepare length] in *.
  assert (Hmin : INT_MIN <= 0)
    by (unfold INT_MIN, INT_BITS; change (2 ^ (16 - 1)) with 32768; lia).
  rewrite to_int_small by lia.
  destruct (prepare rest (i + 1) _) as [steps_left this'] eqn:E. cbn [snd].
  change this' with (snd (steps_left, this')). rewrite <- E. clear E.
  destruct k as [|k]; cbn [nth_error] in Hk.
  - injection Hk as ->. rewrite Z.add_0_r.
    rewrite prepare_direction_below by lia.
    destruct (Z.ltb_spec 0 steps), (Z.ltb_spec steps 0);
      try lia; rewrite ?rd_wr_same; reflexivity.
  - replace (i + Z.of_nat (S k)) with (i + 1 + Z.of_nat k) by lia.
    rewrite (IH (i + 1) _ k) by (assumption || lia).
    destruct (0 <? steps); [reflexivity|].
    destruct (steps <? 0); [reflexivity|].
    destruct (0 <? s), (s <? 0); rewrite ?rd_wr_index by lia; reflexivity.
Qed.

(** X13: [step] sets the direction of the motor at each position of the
    list from the sign of the count found there: 1 for a positive count,
    0 for a negative one, and no change for a count of 0.  (For lists of
    at most INT_MAX entries.) *)
Theorem step_sets_direction
        (fuel : nat) (steps_to_move : list Z) (w : world)
        (k : nat) (steps : Z) :
  Z.of_nat (length steps_to_move) <= INT_MAX ->
  nth_error steps_to_move k = Some steps ->
  rd (obj (reached (step fuel steps_to_move w))) direction (Z.of_nat k)
  = if 0 <? steps then Forward
    else if steps <? 0 then Backward
         else rd (obj w) direction (Z.of_nat k).
Proof.
  intros Hlen Hk. unfold step.
  destruct (prepare steps_to_move 0 (obj w)) as [steps_left this] eqn:E.
  rewrite loop_frame by (try discriminate; left; discriminate). cbn [obj].
  change this with (snd (steps_left, this)). rewrite <- E.
  apply (prepare_direction_at steps_to_move 0 (obj w) k steps);
    [lia | lia | assumption].
Qed.

Lemma step_sets_direction_witness :
  rd (obj (reached (step 2 [0; 1] two_motors))) direction (Z.of_nat 1)
  = if 0 <? 1 then Forward
    else if 1 <? 0 then Backward
         else rd (obj two_motors) direction (Z.of_nat 1).
Proof.
  apply (step_sets_direction 2 [0; 1] two_motors 1 1).
  - vm_compute. discriminate.
  - reflexivity.
Defined.

(** ** Sequences of calls *)

Lemma prepare_motor_count (steps_to_move : list Z) (i : Z) (this : t) :
  motor_count (snd (prepare steps_to_move i this)) = motor_count this.
Proof.
  revert i this.
  induction steps_to_move as [|steps rest IH]; intros i this; [reflexivity|].
  cbn [prepare].
  destruct (prepare rest _ _) as [steps_left this'] eqn:E. cbn [snd].
  change this' with (snd (steps_left, this')). rewrite <- E, IH.
  now destruct (0 <? steps), (steps <? 0).
Qed.

Lemma pass_motor_count (steps_to_move : list Z) (w : world) :
  motor_count (obj (pass steps_to_move w)) = motor_count (obj w).
Proof.
  unfold pass. revert w.
  induction steps_to_move as [|motor rest IH]; intros w; [reflexivity|].
  cbn [fold_left]. rewrite IH. apply service_motor_count.
Qed.

Lemma loop_motor_count (fuel : nat) (steps_to_move steps_left : list Z)
      (w : world) :
  motor_count (obj (reached (loop fuel steps_to_move steps_left w)))
  = motor_count (obj w).
Proof.
  revert w. induction fuel as [|fuel IH]; intros w; cbn [loop];
    destruct (0 <? stepsLeft steps_left); try reflexivity.
  rewrite IH. apply pass_motor_count.
Qed.

Lemma step_motor_count (fuel : nat) (steps_to_move : list Z) (w : world) :
  motor_count (obj (reached (step fuel steps_to_move w)))
  = motor_count (obj w).
Proof.
  unfold step.
  destruct (prepare steps_to_move 0 (obj w)) as [steps_left this] eqn:E.
  rewrite loop_motor_count. cbn [obj].
  change this with (snd (steps_left, this)). rewrite <- E.
  apply prepare_motor_count.
Qed.

Lemma registrations_cons (c : call) (cs : list call) :
  registrations (c :: cs)
  = (if is_registration c then 1 else 0) + registrations cs.
Proof.
  unfold registrations. cbn [filter].
  destruct (is_registration c); cbn [length]; lia.
Qed.

Lemma registrations_nonneg (cs : list call) : 0 <= registrations cs.
Proof. unfold registrations. lia. Qed.

Lemma exec_stable (c : call) (w w' : world) (motor : Z) :
  0 <= motor < motor_count (obj w) ->
  motor_count (obj w) + (if is_registration c then 1 else 0) <= INT_MAX ->
  exec c w = Some w' ->
  motor_count (obj w')
    = motor_count (obj w) + (if is_registration c then 1 else 0) /\
  forall a, wiring a = true -> rd (obj w') a motor = rd (obj w) a motor.
Proof.
  intros Hm Hmax.
  assert (Hmin : INT_MIN <= 0)
    by (unfold INT_MIN, INT_BITS; change (2 ^ (16 - 1)) with 32768; lia).
  destruct c as [n p1 p2 | n p1 p2 p3 p4 | whatSpeed motor' | fuel steps];
    cbn [exec is_registration] in *.
  - intros [= <-]. split.
    + destruct (addMotor_motor_count n p1 p2 w) as [-> _].
      apply to_int_small. lia.
    + intros a _. unfold addMotor. cbn [obj].
      rewrite rd_set_motor_count, !rd_wr_index by lia. reflexivity.
  - intros [= <-]. split.
    + destruct (addMotor4_motor_count n p1 p2 p3 p4 w) as [-> _].
      apply to_int_small. lia.
    + intros a _. unfold addMotor4. cbn [obj].
      rewrite rd_set_motor_count, !rd_wr_index by lia. reflexivity.
  - unfold setSpeed. destruct (_ || _); [discriminate|].
    intros [= <-]. cbn [obj]. split; [cbn; lia|].
    intros a Ha. apply rd_wr_member. intros ->. discriminate.
  - intros [= <-]. split.
    + rewrite step_motor_count. lia.
    + intros a Ha. apply step_frame.
      * intros ->. discriminate.
      * intros ->. discriminate.
      * left. intros ->. discriminate.
Qed.

Lemma exec_all_stable (cs : list call) (w w' : world) (motor : Z) :
  0 <= motor < motor_count (obj w) ->
  motor_count (obj w) + registrations cs <= INT_MAX ->
  exec_all cs w = Some w' ->
  motor_count (obj w') = motor_count (obj w) + registrations cs /\
  forall a, wiring a = true -> rd (obj w') a motor = rd (obj w) a motor.
Proof.
  revert w.
  induction cs as [|c cs IH]; intros w Hm Hmax; cbn [exec_all].
  - intros [= <-]. split; [unfold registrations; cbn; lia | reflexivity].
  - rewrite registrations_cons in *.
    pose proof (registrations_nonneg cs) as Hcs.
    destruct (exec c w) as [w1|] eqn:E; [|discriminate]. intros Hx.
    destruct (exec_stable c w w1 motor Hm) as [Hc Hw];
      [destruct (is_registration c); lia | exact E |].
    destruct (IH w1) as [Hc' Hw'];
      [destruct (is_registration c); lia
      | destruct (is_registration c); lia | exact Hx |].
    split; [lia|]. intros a Ha. now rewrite Hw', Hw.
Qed.

(** X14: the indices of registered motors are stable.  Through every
    sequence of calls (registrations, [setSpeed], [step]) that keeps the
    motor count within an [int], the motor count grows by exactly the
    number of registrations in the sequence, and a motor registered
    before the sequence keeps its number of steps, its pins and its pin
    count, hence the coil pattern [stepMotor] emits for it in every
    phase. *)
Theorem registered_motor_stable
        (cs : list call) (w w' : world) (motor : Z) :
  0 <= motor < motor_count (obj w) ->
  motor_count (obj w) + registrations cs <= INT_MAX ->
  exec_all cs w = Some w' ->
  motor_count (obj w') = motor_count (obj w) + registrations cs /\
  (forall a, wiring a = true -> rd (obj w') a motor = rd (obj w) a motor) /\
  (forall thisStep,
      stepMotor (obj w') thisStep motor = stepMotor (obj w) thisStep motor).
Proof.
  intros Hm Hmax Hx.
  destruct (exec_all_stable cs w w' motor Hm Hmax Hx) as [Hc Hw].
  split; [exact Hc|]. split; [exact Hw|].
  intros thisStep. now apply stepMotor_same_wiring.
Qed.

Lemma registered_motor_stable_witness :
  exists w',
    exec_all [SetSpeed 30 0; AddMotor4 48 4 5 6 7; Step 3 [1; 0]]
             (addMotor 200 8 9 (fresh 2 7 5)) = Some w' /\
    motor_count (obj w') = 1 + 1 /\
    stepMotor (obj w') 1 0 = [digitalWrite 8 HIGH; digitalWrite 9 HIGH].
Proof.
  eexists. split; [reflexivity|].
  assert (Hm : 0 <= 0 < motor_count (obj (addMotor 200 8 9 (fresh 2 7 5))))
    by (vm_compute; split; [discriminate | reflexivity]).
  assert (Hmax : motor_count (obj (addMotor 200 8 9 (fresh 2 7 5)))
                 + registrations [SetSpeed 30 0; AddMotor4 48 4 5 6 7;
                                  Step 3 [1; 0]] <= INT_MAX)
    by (vm_compute; discriminate).
  destruct (registered_motor_stable _ _ _ 0 Hm Hmax eq_refl) as (Hc & _ & Hs).
  split; [exact Hc|]. rewrite Hs. reflexivity.
Defined.

(** ** Speed, continued *)

(** X15: a call of [setSpeed] assigns the motor's [step_delay] cell and
    nothing else: the board, the motor count and every other cell, among
    them the motor's [speed], step number and direction, stay as they
    were. *)
Theorem setSpeed_only_step_delay (whatSpeed motor : Z) (w w' : world) :
  setSpeed whatSpeed motor w = Some w' ->
  hw w' = hw w /\
  motor_count (obj w') = motor_count (obj w) /\
  forall a j, a <> step_delay \/ j <> motor ->
              rd (obj w') a j = rd (obj w) a j.
Proof.
  unfold setSpeed. destruct (_ || _); [discriminate|].
  intros [= <-]. cbn [obj hw]. repeat split.
  intros a j [Ha | Hj]; [now apply rd_wr_member | now apply rd_wr_index].
Qed.

Lemma setSpeed_only_step_delay_witness :
  exists w',
    setSpeed 60 0 full_bank = Some w' /\
    hw w' = hw full_bank /\
    rd (obj w') speed 0 = rd (obj full_bank) speed 0.
Proof.
  eexists. split; [reflexivity|].
  destruct (setSpeed_only_step_delay 60 0 full_bank _ eq_refl)
    as (Hhw & _ & Hcells).
  split; [exact Hhw|]. apply Hcells. left. discriminate.
Defined.

Lemma due_zero_interval (motor : Z) (w : world) :
  rd (obj w) step_delay motor = 0 -> due motor w = true.
Proof.
  intros H. unfold due. rewrite H.
  pose proof (to_ulong_range
                (fst (millis (hw w)) - rd (obj w) last_step_time motor)).
  apply Z.geb_le. change (to_ulong 0) with 0. lia.
Qed.

(** X16: a speed above 60000 / S revolutions per minute gives a motor of S
    steps the interval 0, and with the interval 0 the timing gate is
    always open: until the next [setSpeed] for the motor, every servicing
    of it takes a step, whatever the clock reads. *)
Theorem zero_interval_free_runs (S R motor : Z) (w : world) :
  0 < S -> 0 < R -> 60000 < S * R ->
  rd (obj w) number_of_steps motor = S ->
  exists w',
    setSpeed R motor w = Some w' /\
    rd (obj w') step_delay motor = 0 /\
    forall cs w'',
      no_setSpeed_of motor cs = true -> exec_all cs w' = Some w'' ->
      due motor w'' = true.
Proof.
  intros HS HR Hbig Hn.
  assert (Hstore : rd (obj w) number_of_steps motor <> 0) by lia.
  assert (HR0 : R <> 0) by lia.
  rewrite (setSpeed_stores R motor w Hstore HR0), Hn.
  rewrite Z.quot_small by lia.
  eexists. split; [reflexivity|]. cbn [obj].
  assert (H0 : rd (wr (obj w) step_delay motor (to_int 0)) step_delay motor
               = 0) by now rewrite rd_wr_same.
  split; [exact H0|].
  intros cs w'' Hcs Hx. apply due_zero_interval.
  now rewrite (step_delay_exec_all cs motor _ w'' Hcs Hx).
Qed.

Lemma zero_interval_free_runs_witness :
  exists w',
    setSpeed 301 0 full_bank = Some w' /\
    rd (obj w') step_delay 0 = 0 /\
    forall cs w'',
      no_setSpeed_of 0 cs = true -> exec_all cs w' = Some w'' ->
      due 0 w'' = true.
Proof.
  apply (zero_interval_free_runs 200 301 0 full_bank).
  - lia.
  - lia.
  - lia.
  - reflexivity.
Defined.

(** X17: a negative interval, as [setSpeed] stores it for a negative
    speed, closes the timing gate: converted to [unsigned long] for the
    comparison of line 179 it is a number just below 2^32, and a servicing
    of the motor only reads the clock as long as less than 2^32 - 2^15
    milliseconds have elapsed since the motor's time stamp. *)
Theorem negative_interval_stalls (motor : Z) (w : world) :
  INT_MIN <= rd (obj w) step_delay motor < 0 ->
  0 <= rd (obj w) last_step_time motor <= fst (millis (hw w)) ->
  fst (millis (hw w)) - rd (obj w) last_step_time motor
    < 2 ^ LONG_BITS - 2 ^ (INT_BITS - 1) ->
  service motor w = {| obj := obj w; hw := after_millis 1 (hw w) |}.
Proof.
  intros Hdelay Hlast Hel. apply service_not_due. unfold due.
  pose proof (to_ulong_range (clock (hw w) (ticks (hw w)))) as Hnow.
  change (fst (millis (hw w))) with (to_ulong (clock (hw w) (ticks (hw w))))
    in *.
  revert Hdelay Hel Hnow. unfold INT_MIN, INT_BITS, LONG_BITS.
  change (2 ^ (16 - 1)) with 32768. change (2 ^ 32) with 4294967296.
  intros Hdelay Hel Hnow.
  rewrite (to_ulong_small (_ - _))
    by (unfold LONG_BITS; change (2 ^ 32) with 4294967296; lia).
  assert (E : to_ulong (rd (obj w) step_delay motor)
              = rd (obj w) step_delay motor + 4294967296).
  { unfold to_ulong, LONG_BITS. change (2 ^ 32) with 4294967296.
    symmetry. apply (Z.mod_unique_pos _ _ (-1)); lia. }
  rewrite E, Z.geb_leb. apply Z.leb_gt. lia.
Qed.

Lemma negative_interval_stalls_witness :
  exists w',
    setSpeed (-1) 0 (addMotor 200 8 9 (fresh 1 0 5)) = Some w' /\
    rd (obj w') step_delay 0 = -300 /\
    service 0 w' = {| obj := obj w'; hw := after_millis 1 (hw w') |}.
Proof.
  eexists. split; [reflexivity|]. split; [reflexivity|].
  apply negative_interval_stalls.
  - vm_compute. split; [discriminate | reflexivity].
  - vm_compute. split; discriminate.
  - vm_compute. reflexivity.
Defined.

(** ** Registration order *)

Lemma exec_registration (c : call) (w : world) :
  is_registration c = true ->
  exists w1,
    exec c w = Some w1 /\
    motor_count (obj w1) = to_int (motor_count (obj w) + 1) /\
    registered_as c (obj w1) (motor_count (obj w)).
Proof.
  destruct c as [n p1 p2 | n p1 p2 p3 p4 | |]; try discriminate; intros _;
    cbn [exec registered_as]; eexists; (split; [reflexivity|]).
  - split; [apply addMotor_motor_count|]. split.
    + apply (addMotor_created_block n p1 p2 w).
    + apply addMotor_two_wire.
  - split; [apply addMotor4_motor_count|]. split.
    + apply (addMotor4_created_block n p1 p2 p3 p4 w).
    + apply addMotor4_four_wire.
Qed.

Lemma registered_as_wiring (c : call) (this this' : t) (motor : Z) :
  (forall a, wiring a = true -> rd this' a motor = rd this a motor) ->
  registered_as c this motor -> registered_as c this' motor.
Proof.
  intros H. destruct c; cbn [registered_as]; unfold two_wire, four_wire;
    rewrite ?(H number_of_steps), ?(H pin_count), ?(H motor_pin_1),
      ?(H motor_pin_2), ?(H motor_pin_3), ?(H motor_pin_4) by reflexivity;
    trivial.
Qed.

Lemma registrations_all (cs : list call) :
  forallb is_registration cs = true ->
  registrations cs = Z.of_nat (length cs).
Proof.
  intros H. unfold registrations. f_equal. f_equal.
  induction cs as [|c cs IH]; [reflexivity|].
  cbn [forallb] in H. apply andb_prop in H as [Hc Hcs].
  cbn [filter]. rewrite Hc. cbn [length]. now rewrite IH.
Qed.

Lemma exec_all_registrations (cs : list call) (w : world) :
  forallb is_registration cs = true ->
  0 <= motor_count (obj w) ->
  motor_count (obj w) + Z.of_nat (length cs) <= INT_MAX ->
  exists w',
    exec_all cs w = Some w' /\
    motor_count (obj w') = motor_count (obj w) + Z.of_nat (length cs).
Proof.
  assert (Hmin : INT_MIN <= 0)
    by (unfold INT_MIN, INT_BITS; change (2 ^ (16 - 1)) with 32768; lia).
  revert w.
  induction cs as [|c cs IH]; intros w Hall H0 Hmax.
  - exists w. split; [reflexivity | cbn; lia].
  - cbn [forallb length] in *. apply andb_prop in Hall as [Hc Hcs].
    destruct (exec_registration c w Hc) as (w1 & E & Hcount & _).
    rewrite to_int_small in Hcount by lia.
    destruct (IH w1 Hcs) as (w' & Hx & Hc'); [lia | lia |].
    exists w'. cbn [exec_all]. rewrite E. split; [exact Hx | lia].
Qed.

Lemma registration_order_from (cs : list call) (w : world)
      (k : nat) (c : call) :
  forallb is_registration cs = true ->
  0 <= motor_count (obj w) ->
  motor_count (obj w) + Z.of_nat (length cs) <= INT_MAX ->
  nth_error cs k = Some c ->
  exists w',
    exec_all cs w = Some w' /\
    motor_count (obj w') = motor_count (obj w) + Z.of_nat (length cs) /\
    registered_as c (obj w') (motor_count (obj w) + Z.of_nat k).
Proof.
  assert (Hmin : INT_MIN <= 0)
    by (unfold INT_MIN, INT_BITS; change (2 ^ (16 - 1)) with 32768; lia).
  revert w k.
  induction cs as [|c0 cs IH]; intros w k Hall H0 Hmax Hk;
    [destruct k; discriminate|].
  cbn [forallb length] in *. apply andb_prop in Hall as [Hc0 Hcs].
  destruct (exec_registration c0 w Hc0) as (w1 & E & Hcount & Hreg).
  rewrite to_int_small in Hcount by lia.
  cbn [exec_all]. rewrite E.
  destruct k as [|k]; cbn [nth_error] in Hk.
  - injection Hk as <-.
    destruct (exec_all_registrations cs w1 Hcs) as (w' & Hx & Hc');
      [lia | lia |].
    exists w'. split; [exact Hx|]. split; [lia|].
    rewrite Z.add_0_r.
    destruct (exec_all_stable cs w1 w' (motor_count (obj w))) as [_ Hw];
      [lia | rewrite registrations_all by assumption; lia | exact Hx |].
    now apply (registered_as_wiring c0 (obj w1)).
  - destruct (IH w1 k) as (w' & Hx & Hc' & Hreg'); try lia; try assumption.
    exists w'. split; [exact Hx|]. split; [lia|].
    replace (motor_count (obj w) + Z.of_nat (S k))
      with (motor_count (obj w1) + Z.of_nat k) by lia.
    exact Hreg'.
Qed.

Lemma exec_all_registrations_allocated (cs : list call) (w w' : world) :
  forallb is_registration cs = true ->
  exec_all cs w = Some w' ->
  allocated (obj w') = allocated (obj w).
Proof.
  revert w. induction cs as [|c cs IH]; intros w Hall; cbn [exec_all].
  - now intros [= <-].
  - cbn [forallb] in Hall. apply andb_prop in Hall as [Hc Hcs].
    destruct c as [n p1 p2 | n p1 p2 p3 p4 | |]; try discriminate;
      cbn [exec]; intros Hx; rewrite (IH _ Hcs Hx).
    + apply addMotor_motor_count.
    + apply addMotor4_motor_count.
Qed.

(** X19: registration order gives the motor indices.  After the
    constructor, a sequence of registrations of either kind that stays
    within the number of motors the constructor allocated room for goes
    through, leaves the motor count equal to the number of registrations,
    and leaves at index k the number of steps, the pins and the pin count
    given to the k-th registration (counting from 0). *)
Theorem registration_order
        (number_of_motors : Z) (raw : member -> Z -> Z) (b : board)
        (cs : list call) (k : nat) (c : call) :
  forallb is_registration cs = true ->
  Z.of_nat (length cs) <= number_of_motors <= INT_MAX ->
  nth_error cs k = Some c ->
  exists w',
    exec_all cs {| obj := MultiStepper number_of_motors raw; hw := b |}
      = Some w' /\
    motor_count (obj w') = Z.of_nat (length cs) /\
    within_capacity w' /\
    registered_as c (obj w') (Z.of_nat k).
Proof.
  intros Hall Hlen Hk.
  destruct (registration_order_from
              cs {| obj := MultiStepper number_of_motors raw; hw := b |} k c)
    as (w' & Hx & Hc & Hreg);
    cbn [obj MultiStepper motor_count]; try assumption; try lia.
  exists w'. cbn [obj MultiStepper motor_count] in Hc.
  split; [exact Hx|]. split; [lia|]. split; [|exact Hreg].
  unfold within_capacity.
  rewrite (exec_all_registrations_allocated cs _ w' Hall Hx).
  cbn [obj MultiStepper allocated]. lia.
Qed.

Lemma registration_order_witness :
  exists w',
    exec_all [AddMotor 200 2 3; AddMotor4 48 4 5 6 7]
             {| obj := MultiStepper 2 (fun _ _ => 7); hw := idle_board 5 |}
      = Some w' /\
    motor_count (obj w') = Z.of_nat (length [AddMotor 200 2 3;
                                             AddMotor4 48 4 5 6 7]) /\
    within_capacity w' /\
    registered_as (AddMotor4 48 4 5 6 7) (obj w') (Z.of_nat 1).
Proof.
  apply (registration_order 2 (fun _ _ => 7) (idle_board 5)
           [AddMotor 200 2 3; AddMotor4 48 4 5 6 7] 1
           (AddMotor4 48 4 5 6 7)).
  - reflexivity.
  - vm_compute. split; discriminate.
  - reflexivity.
Defined.

(** ** The array of remaining steps *)

Lemma unassigned_In (b : board) (len : nat) (count i : Z) :
  Z.of_nat len <= i < count -> In (store b i) (unassigned b len count).
Proof.
  intros H. unfold unassigned.
  replace i with (Z.of_nat (Z.to_nat i)) by lia.
  apply (in_map (fun k => store b (Z.of_nat k))).
  apply in_seq. lia.
Qed.

(** X20: the array of remaining steps has [motor_count] cells (line 161)
    and the loop of lines 165-174 assigns one per entry of the list.  With
    a list shorter than the motor count the other cells keep what the
    allocation came with, and [stepsLeft] examines them too: if one of
    them holds a positive value the call enters the stepping loop and
    does not return, even when every count in the list is 0. *)
Theorem step_unassigned_counter
        (steps_to_move : list Z) (w : world) (i : Z) :
  Z.of_nat (length steps_to_move) <= i < motor_count (obj w) ->
  0 < store (hw w) i ->
  forall fuel, exists w', step fuel steps_to_move w = Running w'.
Proof.
  intros Hi Hpos fuel. unfold step.
  destruct (prepare steps_to_move 0 (obj w)) as [assigned this].
  apply loop_running.
  pose proof (unassigned_In (hw w) (length steps_to_move)
                            (motor_count (obj w)) i Hi) as Hin.
  assert (Hin' : In (store (hw w) i)
                    (assigned ++ unassigned (hw w) (length steps_to_move)
                                            (motor_count (obj w))))
    by (apply in_or_app; now right).
  pose proof (stepsLeft_ge _ 0 _ Hin') as Hge.
  fold (stepsLeft (assigned ++ unassigned (hw w) (length steps_to_move)
                                          (motor_count (obj w)))) in Hge.
  lia.
Qed.

Lemma step_unassigned_counter_witness :
  Z.of_nat (length [0]) <= 1 < motor_count (obj (littered 9 two_motors)) /\
  0 < store (hw (littered 9 two_motors)) 1 /\
  exists w', step 4 [0] (littered 9 two_motors) = Running w'.
Proof.
  assert (Hi : Z.of_nat (length [0]) <= 1
               < motor_count (obj (littered 9 two_motors)))
    by (vm_compute; split; [discriminate | reflexivity]).
  assert (Hpos : 0 < store (hw (littered 9 two_motors)) 1) by reflexivity.
  split; [exact Hi|]. split; [exact Hpos|].
  exact (step_unassigned_counter [0] (littered 9 two_motors) 1 Hi Hpos 4%nat).
Defined.
